(** * SIMD-X: configuration headers and the adaptive BFS engine

    Sources embedded here:
    - [src/lib/util.h]: the fail-fast CUDA error handler [HandleError], the
      [H_ERR] macro and the tuning constants of the traversal;
    - [src/test/optimal/bfs_high_diameter/header.h]: the scalar types of the
      graph arrays, the [INFTY] sentinel, the block count and the bin size.

    The traversal engine itself is not part of these two headers; its
    components are modelled from the spec, and the doc comments of their
    definitions say so. *)

From Stdlib Require Import ZArith QArith Lia List Permutation.
From stdpp Require Import base list strings gmap pretty.

Set Warnings "-register-all".

Local Open Scope Z_scope.

(* ===================================================================== *)
(** * Part I: the model                                                  *)
(* ===================================================================== *)

(** ** Machine integers

    The CUDA data model fixes [int] and [unsigned int] at 32 bits and
    [unsigned char] at 8 bits.  A value is a [Z]; conversion to a type wraps. *)

Inductive CType := TInt | TUInt | TUChar | TFloat | TDouble.

Definition int_min : Z := - 2 ^ 31.
Definition int_max : Z := 2 ^ 31 - 1.
Definition uint_max : Z := 2 ^ 32 - 1.

Definition to_int (z : Z) : Z := (z + 2 ^ 31) mod 2 ^ 32 - 2 ^ 31.
Definition to_uint (z : Z) : Z := z mod 2 ^ 32.
Definition to_uchar (z : Z) : Z := z mod 2 ^ 8.

(** Inclusive range of the integer types; the floating types have none. *)
Definition type_range (t : CType) : option (Z * Z) :=
  match t with
  | TInt => Some (int_min, int_max)
  | TUInt => Some (0, uint_max)
  | TUChar => Some (0, 255)
  | TFloat | TDouble => None
  end.

Definition in_range (t : CType) (z : Z) : bool :=
  match type_range t with
  | Some (lo, hi) => (lo <=? z) && (z <=? hi)
  | None => false
  end.

(** ** Binary floating point, as exact rationals

    A finite binary32 or binary64 number is a dyadic rational, so a value of
    type [float] or [double] is the [Q] it denotes, and the comparisons of C
    are the comparisons of [Q].  [round_binary p] rounds to the nearest number
    with a [p]-bit significand, ties to even (normal range only: the literals
    of the headers are far from overflow and underflow). *)

Definition round_half_even (n d : Z) : Z :=
  let q := n / d in
  let r := n mod d in
  match 2 * r ?= d with
  | Lt => q
  | Gt => q + 1
  | Eq => if Z.even q then q else q + 1
  end.

Definition round_binary_pos (p : Z) (n d : Z) : Q :=
  let scaled (e : Z) : Z * Z :=
    if 0 <=? e then (n, d * 2 ^ e) else (n * 2 ^ (- e), d) in
  let e0 := Z.log2 n - Z.log2 d - p in
  let e := (let '(a, b) := scaled e0 in if 2 ^ p * b <=? a then e0 + 1 else e0) in
  let '(a, b) := scaled e in
  let m := round_half_even a b in
  if 0 <=? e then inject_Z (m * 2 ^ e) else Qmake m (Z.to_pos (2 ^ (- e))).

Definition round_binary (p : Z) (x : Q) : Q :=
  match Qnum x with
  | Z0 => 0%Q
  | Zpos n => round_binary_pos p (Zpos n) (Zpos (Qden x))
  | Zneg n => Qopp (round_binary_pos p (Zpos n) (Zpos (Qden x)))
  end.

Definition to_float (x : Q) : Q := round_binary 24 x.
Definition to_double (x : Q) : Q := round_binary 53 x.

(** ** Constant expressions of the headers *)

Inductive CExpr :=
| EInt (z : Z)                 (* decimal integer literal *)
| EDec (q : Q)                 (* decimal floating literal, type double *)
| ENeg (e : CExpr)
| ECast (t : CType) (e : CExpr).

Inductive CValue :=
| VInt (z : Z)
| VUInt (z : Z)
| VUChar (z : Z)
| VFloat (q : Q)
| VDouble (q : Q).

Definition numeric (v : CValue) : Q :=
  match v with
  | VInt z | VUInt z | VUChar z => inject_Z z
  | VFloat q | VDouble q => q
  end.

(** Conversion to an integer type truncates toward zero, then wraps. *)
Definition truncate (q : Q) : Z := Z.quot (Qnum q) (Zpos (Qden q)).

Definition cast (t : CType) (v : CValue) : CValue :=
  match t with
  | TInt => VInt (to_int (truncate (numeric v)))
  | TUInt => VUInt (to_uint (truncate (numeric v)))
  | TUChar => VUChar (to_uchar (truncate (numeric v)))
  | TFloat => VFloat (to_float (numeric v))
  | TDouble => VDouble (to_double (numeric v))
  end.

Definition negate (v : CValue) : CValue :=
  match v with
  | VInt z => VInt (to_int (- z))
  | VUInt z => VUInt (to_uint (- z))
  | VUChar z => VInt (to_int (- z))      (* integer promotion *)
  | VFloat q => VFloat (Qopp q)
  | VDouble q => VDouble (Qopp q)
  end.

Fixpoint eval (e : CExpr) : CValue :=
  match e with
  | EInt z => VInt (to_int z)
  | EDec q => VDouble (to_double q)
  | ENeg e => negate (eval e)
  | ECast t e => cast t (eval e)
  end.

(** ** The two headers, as the preprocessor reads them

    Only what acts on the macro table and on the typedef table is kept
    apart; every other line is an [Other] item. *)

Inductive MacroDef :=
| ObjectLike (body : option CExpr)              (* [None]: empty replacement *)
| FunctionLike (params : list string) (replacement : string).

Inductive Item :=
| Define (name : string) (d : MacroDef)
| Undef (name : string)
| IfNDef (name : string) (then_ else_ : list Item)
| Typedef (name : string) (t : CType)
| Other (text : string).

Record PP := mkPP {
  macros : gmap string MacroDef;
  typedefs : gmap string CType
}.

Definition pp_empty : PP := mkPP ∅ ∅.

(** [-D name=body] on the compiler command line. *)
Definition predefine (name : string) (body : CExpr) (st : PP) : PP :=
  mkPP (<[name := ObjectLike (Some body)]> (macros st)) (typedefs st).

(** A [#define] of a name that is already defined replaces the definition
    (the compilers warn and go on). *)
Fixpoint pp_item (i : Item) (st : PP) {struct i} : PP :=
  match i with
  | Define n d => mkPP (<[n := d]> (macros st)) (typedefs st)
  | Undef n => mkPP (delete n (macros st)) (typedefs st)
  | IfNDef n th el =>
      let fix go (l : list Item) (st : PP) {struct l} : PP :=
        match l with
        | [] => st
        | x :: r => go r (pp_item x st)
        end in
      match macros st !! n with
      | None => go th st
      | Some _ => go el st
      end
  | Typedef n t => mkPP (macros st) (<[n := t]> (typedefs st))
  | Other _ => st
  end.

Definition preprocess (l : list Item) (st : PP) : PP :=
  fold_left (fun st i => pp_item i st) l st.

Definition macro_value (st : PP) (n : string) : option CValue :=
  match macros st !! n with
  | Some (ObjectLike (Some e)) => Some (eval e)
  | _ => None
  end.

Definition int_lit (z : Z) : MacroDef := ObjectLike (Some (EInt z)).

(** [src/lib/util.h] *)
Definition util_h : list Item :=
  [ IfNDef "UTIL_H"
      [ Define "UTIL_H" (ObjectLike None);
        Other "#include <stdio.h>";
        Other "static void HandleError( cudaError_t err, const char *file, int line )";
        Define "H_ERR" (FunctionLike ["err"] "(HandleError( err, __FILE__, __LINE__ ))");
        Define "SML_MID" (int_lit 32);
        Define "MID_LRG" (int_lit 1024);
        Define "SWITCH_TO" (ObjectLike (Some (ECast TFloat (EDec (2 # 10)))));
        Define "SWITCH_BACK" (ObjectLike (Some (ECast TFloat (EDec (4 # 10)))));
        IfNDef "GPUID" [ Define "GPUID" (int_lit 0) ] [];
        IfNDef "THDS_NUM" [ Define "THDS_NUM" (int_lit 512) ] [];
        IfNDef "BLKS_NUM" [ Define "BLKS_NUM" (int_lit 512) ] [] ]
      [] ]%string.

(** [src/test/optimal/bfs_high_diameter/header.h] *)
Definition header_h : list Item :=
  [ IfNDef "HEADER_H"
      [ Define "HEADER_H" (ObjectLike None);
        Typedef "index_t" TInt;
        Typedef "vertex_t" TUInt;
        Typedef "feature_t" TInt;
        Typedef "weight_t" TInt;
        Typedef "bit_t" TUChar;
        Define "INFTY" (ObjectLike (Some (ECast TInt (ENeg (EInt 1)))));
        IfNDef "BLKS_NUM"
          [ Define "BLKS_NUM" (int_lit 256) ]
          [ Undef "BLKS_NUM"; Define "BLKS_NUM" (int_lit 256) ];
        Define "BIN_SZ" (int_lit 8192) ]
      [] ]%string.

(** ** The constants, by the names the sources give them *)

Definition SML_MID : Z := 32.
Definition MID_LRG : Z := 1024.
Definition SWITCH_TO : Q := to_float (to_double (2 # 10)).
Definition SWITCH_BACK : Q := to_float (to_double (4 # 10)).
Definition GPUID : Z := 0.
Definition THDS_NUM : Z := 512.
Definition INFTY : Z := to_int (- 1).
Definition BIN_SZ : Z := 8192.

(** The scalar types of [header.h]. *)
Definition index_t : CType := TInt.
Definition vertex_t : CType := TUInt.
Definition feature_t : CType := TInt.
Definition weight_t : CType := TInt.
Definition bit_t : CType := TUChar.

Definition BLKS_NUM_util_h : Z := 512.     (* the default of util.h *)
Definition BLKS_NUM : Z := 256.            (* as header.h leaves it *)

(** ** Processes: what is written to standard output, and how the call ends *)

Inductive Outcome (A : Type) :=
| Returned (a : A)
| Exited (status : Z).
Arguments Returned {A} a.
Arguments Exited {A} status.

Record Run (A : Type) := mkRun {
  written : list string;        (* one entry for each call of printf *)
  outcome : Outcome A
}.
Arguments mkRun {A} written outcome.
Arguments written {A} r.
Arguments outcome {A} r.

Definition ret {A} (a : A) : Run A := mkRun [] (Returned a).

Definition bind {A B} (m : Run A) (k : A -> Run B) : Run B :=
  match outcome m with
  | Returned a => mkRun (written m ++ written (k a)) (outcome (k a))
  | Exited s => mkRun (written m) (Exited s)
  end.

Definition printf (text : string) : Run unit := mkRun [text] (Returned tt).
Definition exit {A} (status : Z) : Run A := mkRun [] (Exited status).

Notation "c1 ;; c2" := (bind c1 (fun _ => c2)) (at level 100, right associativity).

(** ** [HandleError] and [H_ERR]  ([src/lib/util.h], lines 5 to 16)

    [cudaError_t] is an enumeration of the CUDA runtime, [cudaSuccess] its
    zero; [cudaGetErrorString] belongs to the runtime too and stays a
    parameter.  [EXIT_FAILURE] is the 1 of stdlib.h. *)

Definition cudaSuccess : Z := 0.
Definition EXIT_FAILURE : Z := 1.
Definition newline : string := String (Ascii.ascii_of_nat 10) EmptyString.

(** The text [printf] produces for the format ["%s in %s at line %d\n"]. *)
Definition format_error (description file : string) (line : Z) : string :=
  description +:+ " in " +:+ file +:+ " at line " +:+ pretty line +:+ newline.

Section ErrorHandler.
Variable cudaGetErrorString : Z -> string.

Definition HandleError (err : Z) (file : string) (line : Z) : Run unit :=
  if negb (err =? cudaSuccess) then
    printf (format_error (cudaGetErrorString err) file line) ;;
    exit EXIT_FAILURE
  else ret tt.

(** [H_ERR( err )] written in file [file] at line [line]. *)
Definition H_ERR (file : string) (line : Z) (err : Z) : Run unit :=
  HandleError err file line.

End ErrorHandler.

(** [x] occurs in [s]. *)
Definition occurs_in (x s : string) : Prop :=
  exists before after : string, s = before +:+ x +:+ after.

(** ** Execution configuration *)

(** Modelled from the spec: the immutable configuration structure of the
    design notes (section 9), which gathers the constants of the two headers;
    it is built once at startup and handed to every component.  The headers
    themselves hold macros only. *)
Record Config := mkConfig {
  gpuid : Z;
  thds_num : Z;
  blks_num : Z;
  sml_mid : Z;
  mid_lrg : Z;
  switch_to : Q;
  switch_back : Q;
  bin_sz : Z
}.

Definition shipped : Config :=
  mkConfig GPUID THDS_NUM BLKS_NUM SML_MID MID_LRG SWITCH_TO SWITCH_BACK BIN_SZ.

(** ** Strategy Selector *)

(** Modelled from the spec: the two states of the selector (section 4.5). *)
Inductive Strategy := TOP_DOWN | BOTTOM_UP.

Definition Strategy_eqb (a b : Strategy) : bool :=
  match a, b with
  | TOP_DOWN, TOP_DOWN | BOTTOM_UP, BOTTOM_UP => true
  | _, _ => false
  end.

(** Modelled from the spec: the guard of the transition from TOP_DOWN to
    BOTTOM_UP in section 4.5, [F >= SML_MID] and [D / E >= SWITCH_TO]; [F] is
    the frontier size and [r] the ratio D / E.  The selector is not in the two
    headers; its thresholds are. *)
Definition to_bottom_up (cfg : Config) (F : Z) (r : Q) : bool :=
  (sml_mid cfg <=? F) && Qle_bool (switch_to cfg) r.

(** Modelled from the spec: the guard of the transition from BOTTOM_UP to
    TOP_DOWN in section 4.5, [F < MID_LRG] and [D / E < SWITCH_BACK]. *)
Definition to_top_down (cfg : Config) (F : Z) (r : Q) : bool :=
  (F <? mid_lrg cfg) && negb (Qle_bool (switch_back cfg) r).

(** Modelled from the spec: the state machine of section 4.5; where no guard
    holds the state stays. *)
Definition select (cfg : Config) (s : Strategy) (F : Z) (r : Q) : Strategy :=
  match s with
  | TOP_DOWN => if to_bottom_up cfg F r then BOTTOM_UP else TOP_DOWN
  | BOTTOM_UP => if to_top_down cfg F r then TOP_DOWN else BOTTOM_UP
  end.

(** The ratio D / E, exact; the division of [Q] gives 0 when [E] is 0 (a
    graph without edges, where [D] is 0 too). *)
Definition ratio (D E : Z) : Q := (inject_Z D / inject_Z E)%Q.


Fixpoint switch_count (cfg : Config) (s : Strategy) (inputs : list (Z * Q)) : nat :=
  match inputs with
  | [] => 0%nat
  | (F, r) :: rest =>
      let s' := select cfg s F r in
      ((if Strategy_eqb s s' then 0 else 1) + switch_count cfg s' rest)%nat
  end.





(** The region of an input: which of the two transitions it enables.  Where
    both are enabled the selector leaves whichever state it is in. *)
Definition region (cfg : Config) (i : Z * Q) : bool * bool :=
  (to_bottom_up cfg i.1 i.2, to_top_down cfg i.1 i.2).

Definition in_overlap (cfg : Config) (i : Z * Q) : bool :=
  to_bottom_up cfg i.1 i.2 && to_top_down cfg i.1 i.2.

Definition region_eqb (a b : bool * bool) : bool :=
  Bool.eqb a.1 b.1 && Bool.eqb a.2 b.2.

Definition overlap_count (cfg : Config) (inputs : list (Z * Q)) : nat :=
  length (List.filter (in_overlap cfg) inputs).

Fixpoint region_changes (cfg : Config) (inputs : list (Z * Q)) : nat :=
  match inputs with
  | [] => 0%nat
  | i :: rest =>
      match rest with
      | [] => 0%nat
      | j :: _ =>
          ((if region_eqb (region cfg i) (region cfg j) then 0 else 1)
           + region_changes cfg rest)%nat
      end
  end.

(** ** Graphs in compressed sparse row form *)

(** Modelled from the spec: the CSR adjacency of section 3, an offsets array
    and a sequence of neighbour ids.  [offsets] holds [index_t] values and
    [neighbors] holds [vertex_t] values ([header.h]); the graph arrays
    themselves are not in the two headers. *)
Record CSR := mkCSR {
  offsets : list Z;
  neighbors : list Z
}.

(** Modelled from the spec: the graph at the input boundary (sections 3 and
    6), the vertex count with the out-adjacency and the in-adjacency. *)
Record Graph := mkGraph {
  vert_count : nat;
  out_csr : CSR;
  in_csr : CSR
}.

Definition edge_count (g : Graph) : Z := Z.of_nat (length (neighbors (out_csr g))).

(** The neighbours of [v]: the cells from [offsets[v]] up to [offsets[v+1]];
    a vertex id read from a cell is used as an array index. *)
Definition row (c : CSR) (v : nat) : list nat :=
  match offsets c !! v, offsets c !! S v with
  | Some b, Some e =>
      Z.to_nat <$> take (Z.to_nat (e - b)) (drop (Z.to_nat b) (neighbors c))
  | _, _ => []
  end.

Definition degree (c : CSR) (v : nat) : Z :=
  match offsets c !! v, offsets c !! S v with
  | Some b, Some e => e - b
  | _, _ => 0
  end.

Definition out_adj (g : Graph) : nat -> list nat := row (out_csr g).
Definition in_adj (g : Graph) : nat -> list nat := row (in_csr g).

(** Modelled from the spec: the invariants of a CSR over [V] vertices in
    section 3: [V + 1] offsets that start at 0, never decrease and end at the
    number of neighbour cells; every cell is a vertex id below [V]; every
    value fits its type. *)
Definition csr_wf (V : nat) (c : CSR) : bool :=
  bool_decide (length (offsets c) = S V)
  && forallb (in_range index_t) (offsets c)
  && forallb (in_range vertex_t) (neighbors c)
  && bool_decide (offsets c !! 0%nat = Some 0)
  && forallb (fun v => 0 <=? degree c v) (seq 0 V)
  && bool_decide (offsets c !! V = Some (Z.of_nat (length (neighbors c))))
  && forallb (fun w => w <? Z.of_nat V) (neighbors c).

(** Modelled from the spec: the in-adjacency is the out-adjacency reversed
    (section 3). *)
Definition transposed (g : Graph) : bool :=
  forallb (fun u => forallb (fun v => bool_decide (u ∈ in_adj g v)) (out_adj g u))
          (seq 0 (vert_count g))
  && forallb (fun v => forallb (fun u => bool_decide (v ∈ out_adj g u)) (in_adj g v))
             (seq 0 (vert_count g)).

Definition graph_wf (g : Graph) : bool :=
  in_range index_t (Z.of_nat (vert_count g))
  && csr_wf (vert_count g) (out_csr g)
  && csr_wf (vert_count g) (in_csr g)
  && transposed g.

(** Paths of the graph, by their number of edges, and shortest ones. *)
Inductive walk (g : Graph) (s : nat) : nat -> nat -> Prop :=
| walk_here : walk g s s 0
| walk_step (u v n : nat) : walk g s u n -> v ∈ out_adj g u -> walk g s v (S n).

Definition dist (g : Graph) (s v n : nat) : Prop :=
  walk g s v n /\ forall m : nat, walk g s v m -> (n <= m)%nat.

(** ** Binning / Load Balancer *)

(** A work item: a frontier vertex with its degree. *)
Definition WorkItem : Type := nat * Z.

(** The division and the remainder of C on [int]: not defined for a zero
    divisor. *)
Definition c_div (a b : Z) : option Z :=
  if b =? 0 then None else Some (Z.quot a b).

Definition c_rem (a b : Z) : option Z :=
  if b =? 0 then None else Some (Z.rem a b).

(** Modelled from the spec: the prefix sum of the degrees over the frontier
    members (section 4.2); [p] is the sum before the first item. *)
Fixpoint prefix_sums (p : Z) (items : list WorkItem) : list Z :=
  match items with
  | [] => []
  | (_, d) :: rest => p :: prefix_sums (to_int (p + d)) rest
  end.

(** Modelled from the spec: bin boundaries at the multiples of BIN_SZ in the
    space of the prefix sums (section 4.2): the item whose prefix sum is [p]
    goes to the bin [p / size].  [None]: a division is not defined. *)
Fixpoint assign_bins (size : Z) (p : Z) (items : list WorkItem) : option (list (Z * WorkItem)) :=
  match items with
  | [] => Some []
  | (u, d) :: rest =>
      match c_div p size, assign_bins size (to_int (p + d)) rest with
      | Some b, Some tagged => Some ((b, (u, d)) :: tagged)
      | _, _ => None
      end
  end.

Definition oversized (size : Z) (w : WorkItem) : bool := size <? w.2.

(** Modelled from the spec: the bins of section 4.2.  Neighbouring items of
    one bin number are grouped; a vertex whose degree is above the bin size
    has a bin of its own. *)
Fixpoint group_bins (size : Z) (tagged : list (Z * WorkItem)) : list (Z * list WorkItem) :=
  match tagged with
  | [] => []
  | (b, w) :: rest =>
      match group_bins size rest with
      | (b', ws) :: groups =>
          if (b =? b') && negb (oversized size w) && negb (existsb (oversized size) ws)
          then (b, w :: ws) :: groups
          else (b, [w]) :: (b', ws) :: groups
      | [] => [(b, [w])]
      end
  end.

Inductive Binning :=
| Binned (bins : list (Z * list WorkItem))
| Degraded (units : list (list WorkItem)).    (* each vertex one unit of work *)

(** Modelled from the spec: the Binning component of section 4.2 with its
    failure mode: with a bin size of 0 binning is skipped and each vertex is
    one unit of work.  The binning code is not in the two headers; BIN_SZ is. *)
Definition make_bins (size : Z) (items : list WorkItem) : option Binning :=
  if size =? 0 then Some (Degraded ((fun w => [w]) <$> items))
  else
    match assign_bins size 0 items with
    | Some tagged => Some (Binned (group_bins size tagged))
    | None => None
    end.

(** ** Frontier Store *)

(** Modelled from the spec: the two forms of a frontier in sections 3 and
    4.1, a queue of vertex ids or a bitmap over all vertices (one [bit_t] cell
    for each vertex, holding 0 or 1). *)
Inductive Frontier :=
| Queue (q : list nat)
| Bitmap (bits : list bool).

Definition bit_set (bits : list bool) (v : nat) : bool :=
  bool_decide (bits !! v = Some true).

Definition members (f : Frontier) : list nat :=
  match f with
  | Queue q => q
  | Bitmap bits => List.filter (bit_set bits) (seq 0 (length bits))
  end.

Definition to_bitmap (V : nat) (vs : list nat) : list bool :=
  fold_left (fun bits v => <[v := true]> bits) vs (replicate V false).

(** Modelled from the spec: the conversions between the two forms
    (section 3), made when a stepper needs the other form. *)
Definition as_queue (f : Frontier) : list nat := members f.

Definition as_bitmap (V : nat) (f : Frontier) : list bool :=
  match f with
  | Queue q => to_bitmap V q
  | Bitmap bits => bits
  end.

Definition frontier_size (f : Frontier) : Z := Z.of_nat (length (members f)).

(** Modelled from the spec: [isEmpty] of section 4.1. *)
Definition is_empty (f : Frontier) : bool :=
  match members f with
  | [] => true
  | _ :: _ => false
  end.

(** Modelled from the spec: [representationFor] of section 4.1, queue form
    below SML_MID members and bitmap form from SML_MID on. *)
Definition representationFor (cfg : Config) (V : nat) (vs : list nat) : Frontier :=
  if Z.of_nat (length vs) <? sml_mid cfg then Queue vs else Bitmap (to_bitmap V vs).

(** ** The steppers *)

(** Modelled from the spec: the atomic claim of sections 4.1, 4.3 and 5.  The
    level of [w] becomes [x] only if it still holds the sentinel, and the
    winner adds [w] to the next frontier; a loser changes nothing.  The state
    is the level array with the next frontier found so far. *)
Definition claim (x : Z) (st : list Z * list nat) (w : nat) : list Z * list nat :=
  match st.1 !! w with
  | Some l => if l =? INFTY then (<[w := x]> st.1, st.2 ++ [w]) else st
  | None => st
  end.

(** The claims of a level, one after the other in the order they arrive. *)
Definition claims (x : Z) (ws : list nat) (st : list Z * list nat) : list Z * list nat :=
  fold_left (claim x) ws st.

Definition unvisited (lvl : list Z) (v : nat) : bool :=
  bool_decide (lvl !! v = Some INFTY).

(** Modelled from the spec: the traversal state of section 2, the level array
    ([feature_t] cells) with the current frontier, the number of the current
    level and the state of the selector. *)
Record State := mkState {
  level : list Z;
  frontier : Frontier;
  depth : Z;
  strategy : Strategy
}.

Section Engine.
Variable cfg : Config.

(** The order in which the claims of the parallel workers of a level reach
    the level array (section 5: races are resolved by the atomic claim).  How
    a bin is dealt to the workers of its group, and the split of a large
    vertex by edge range, are part of this order. *)
Variable sched : list nat -> list nat.

Variable g : Graph.

Definition work_items (q : list nat) : list WorkItem :=
  (fun u => (u, degree (out_csr g) u)) <$> q.

Definition expand (ws : list WorkItem) : list nat :=
  flat_map (fun w => out_adj g w.1) ws.

(** Modelled from the spec: the work of a top-down level (section 4.3), every
    out-neighbour of every frontier vertex; through the Binning layer when
    the frontier has more than SML_MID members. *)
Definition top_down_work (q : list nat) : option (list nat) :=
  if sml_mid cfg <? Z.of_nat (length q) then
    match make_bins (bin_sz cfg) (work_items q) with
    | Some (Binned bins) => Some (flat_map (fun b => expand b.2) bins)
    | Some (Degraded units) => Some (flat_map expand units)
    | None => None
    end
  else Some (flat_map (out_adj g) q).

(** Modelled from the spec: the Top-Down Stepper of section 4.3; [cur] is the
    current level. *)
Definition top_down_step (cur : Z) (lvl : list Z) (q : list nat) : option (list Z * list nat) :=
  match top_down_work q with
  | Some work => Some (claims (to_int (cur + 1)) (sched work) (lvl, []))
  | None => None
  end.

(** Modelled from the spec: the scan of a bottom-up level (section 4.4): the
    unvisited vertices with an in-neighbour in the frontier bitmap; the scan
    of a vertex stops at the first such in-neighbour. *)
Definition bottom_up_work (lvl : list Z) (bits : list bool) : list nat :=
  List.filter (fun v => unvisited lvl v && existsb (bit_set bits) (in_adj g v))
              (seq 0 (vert_count g)).

(** Modelled from the spec: the Bottom-Up Stepper of section 4.4. *)
Definition bottom_up_step (cur : Z) (lvl : list Z) (bits : list bool) : list Z * list nat :=
  claims (to_int (cur + 1)) (sched (bottom_up_work lvl bits)) (lvl, []).

(** ** The traversal *)

(** Modelled from the spec: [create] of section 4.1. *)
Definition create (src : nat) : State :=
  mkState (<[src := 0]> (replicate (vert_count g) INFTY)) (Queue [src]) 0 TOP_DOWN.

(** Modelled from the spec: D of section 4.5, the sum of the out-degrees of
    the frontier. *)
Definition exposed_edges (f : Frontier) : Z :=
  foldr Z.add 0 (degree (out_csr g) <$> members f).

(** Modelled from the spec: one level of the control flow of section 2.  The
    selector chooses the stepper, the stepper takes the frontier in the form
    it needs and gives the next frontier and the new level array. *)
Definition level_step (st : State) : option State :=
  let s := select cfg (strategy st) (frontier_size (frontier st))
             (ratio (exposed_edges (frontier st)) (edge_count g)) in
  let stepped :=
    match s with
    | TOP_DOWN => top_down_step (depth st) (level st) (as_queue (frontier st))
    | BOTTOM_UP =>
        Some (bottom_up_step (depth st) (level st) (as_bitmap (vert_count g) (frontier st)))
    end in
  match stepped with
  | Some (lvl, next) =>
      Some (mkState lvl (representationFor cfg (vert_count g) next) (to_int (depth st + 1)) s)
  | None => None
  end.

(** The state after at most [n] levels of the loop below. *)
Fixpoint run_levels (n : nat) (st : State) : option State :=
  match n with
  | O => Some st
  | S n' =>
      if is_empty (frontier st) then Some st
      else match level_step st with
           | Some st' => run_levels n' st'
           | None => None
           end
  end.

(** Modelled from the spec: the loop of section 2, levels until the frontier
    is empty.  [None]: the fuel ran out or a level failed. *)
Fixpoint traverse (fuel : nat) (st : State) : option State :=
  if is_empty (frontier st) then Some st
  else match fuel with
       | O => None
       | S fuel' =>
           match level_step st with
           | Some st' => traverse fuel' st'
           | None => None
           end
       end.

(** Modelled from the spec: the whole run, from [create] to the empty
    frontier; a level finds a new vertex or is the last, so [vert_count g]
    levels are enough fuel. *)
Definition adaptive_bfs (src : nat) : option State :=
  traverse (vert_count g) (create src).

(** [v] was in the frontier of one of the first [n] levels. *)
Definition discovered (src : nat) (n : nat) (v : nat) : Prop :=
  exists (m : nat) (st : State),
    (m <= n)%nat /\ run_levels m (create src) = Some st /\ v ∈ members (frontier st).

End Engine.

(** ** Reference serial BFS *)

(** Modelled from the spec: the reference serial BFS of section 8, the
    textbook traversal with one queue: the head of the queue is expanded, and
    each neighbour that is still unvisited gets the level after the level of
    the head and joins the end of the queue. *)
Fixpoint serial_loop (fuel : nat) (g : Graph) (lvl : list Z) (queue : list nat) : option (list Z) :=
  match queue with
  | [] => Some lvl
  | u :: rest =>
      match fuel with
      | O => None
      | S fuel' =>
          match lvl !! u with
          | Some lu =>
              let '(lvl', queue') := claims (to_int (lu + 1)) (out_adj g u) (lvl, rest) in
              serial_loop fuel' g lvl' queue'
          | None => None
          end
      end
  end.

(** Modelled from the spec: the reference run from the source; every vertex
    enters the queue at most once. *)
Definition serial_bfs (g : Graph) (src : nat) : option (list Z) :=
  serial_loop (vert_count g) g (<[src := 0]> (replicate (vert_count g) INFTY)) [src].

(** ** The selector inside a run *)



(** ** Startup *)

Inductive ConfigError := ThresholdsInconsistent | BinSizeZero.

(** Modelled from the spec: the configuration errors of section 7 (a),
    SWITCH_TO >= SWITCH_BACK and BIN_SZ == 0.  The startup code is not in the
    two headers. *)
Definition check_config (cfg : Config) : option ConfigError :=
  if Qle_bool (switch_back cfg) (switch_to cfg) then Some ThresholdsInconsistent
  else if bin_sz cfg =? 0 then Some BinSizeZero
  else None.

(** Modelled from the spec: the diagnostic of section 7, which identifies the
    kind of the failure and where it lies, here the constants at fault. *)
Definition config_message (e : ConfigError) : string :=
  match e with
  | ThresholdsInconsistent => "configuration error: SWITCH_TO >= SWITCH_BACK"
  | BinSizeZero => "configuration error: BIN_SZ == 0"
  end.

(** Modelled from the spec: what is seen of a run of the driver, in the order
    in which it happens: a diagnostic is written, or a level of the traversal
    is begun (sections 2 and 7). *)
Inductive Event :=
| Diagnostic (text : string)
| LevelBegun (k : Z).

(** A run of the driver: what happened, in order, and how the run ended. *)
Record Process (A : Type) := mkProcess {
  events : list Event;
  ending : Outcome A
}.

Arguments mkProcess {A} events ending.
Arguments events {A} p.
Arguments ending {A} p.

(** The levels the loop of [traverse] begins, in order: one event each time
    the loop finds the frontier not empty and goes into a level. *)
Fixpoint traverse_events (cfg : Config) (sched : list nat -> list nat) (g : Graph)
    (fuel : nat) (st : State) : list Event :=
  if is_empty (frontier st) then []
  else match fuel with
       | O => []
       | S fuel' =>
           LevelBegun (depth st)
           :: match level_step cfg sched g st with
              | Some st' => traverse_events cfg sched g fuel' st'
              | None => []
              end
       end.

(** Modelled from the spec: the driver of section 7.  The check comes first;
    a configuration it refuses is reported and ends the process with
    [EXIT_FAILURE], and nothing of the traversal is begun; any other
    configuration goes on to [create] and the loop. *)
Definition run_bfs (cfg : Config) (sched : list nat -> list nat) (g : Graph) (src : nat)
  : Process (option State) :=
  match check_config cfg with
  | Some e => mkProcess [Diagnostic (config_message e)] (Exited EXIT_FAILURE)
  | None =>
      mkProcess (traverse_events cfg sched g (vert_count g) (create g src))
                (Returned (adaptive_bfs cfg sched g src))
  end.

(** The defaults of the configuration surface as section 6 of the spec lists
    them, read in a macro table; [blks] is the blocks-per-grid value. *)
Definition config_surface (blks : Z) (st : PP) : Prop :=
  macro_value st "GPUID" = Some (VInt 0) /\
  macro_value st "THDS_NUM" = Some (VInt 512) /\
  macro_value st "BLKS_NUM" = Some (VInt blks) /\
  macro_value st "SML_MID" = Some (VInt 32) /\
  macro_value st "MID_LRG" = Some (VInt 1024) /\
  macro_value st "SWITCH_TO" = Some (VFloat (to_float (2 # 10))) /\
  macro_value st "SWITCH_BACK" = Some (VFloat (to_float (4 # 10))) /\
  macro_value st "BIN_SZ" = Some (VInt 8192).

(** The number of vertices that still hold the sentinel. *)
Definition count_unvisited (lvl : list Z) : nat :=
  length (List.filter (fun l => l =? INFTY) lvl).
(** ** Invariants of the traversal *)

(** What a level does to the level array [lvl] when the frontier is [F]:
    exactly the unvisited out-neighbours of [F] get the level [x] and make up
    the next frontier. *)
Definition level_spec (g : Graph) (x : Z) (F : list nat)
    (lvl lvl' : list Z) (next : list nat) : Prop :=
  length lvl' = length lvl /\
  (forall v, v ∈ next -> lvl' !! v = Some x) /\
  (forall v, v ∉ next -> lvl' !! v = lvl !! v) /\
  (forall v, v ∈ next <-> lvl !! v = Some INFTY /\ exists u, u ∈ F /\ v ∈ out_adj g u) /\
  (count_unvisited lvl' + length next = count_unvisited lvl)%nat.

(** The state before level [k]: the levels set so far are the distances up to
    [k], the frontier holds the vertices at distance [k], and every
    out-neighbour of a vertex below level [k] is visited. *)
Record Inv (g : Graph) (src : nat) (k : nat) (st : State) : Prop := mkInv {
  inv_depth : depth st = Z.of_nat k;
  inv_length : length (level st) = vert_count g;
  inv_src : level st !! src = Some 0;
  inv_sound : forall v l, level st !! v = Some l -> l <> INFTY ->
                exists n : nat, l = Z.of_nat n /\ (n <= k)%nat /\ dist g src v n;
  inv_frontier : forall v, v ∈ members (frontier st) <-> level st !! v = Some (Z.of_nat k);
  inv_closed : forall u n w, level st !! u = Some (Z.of_nat n) -> (n < k)%nat ->
                 w ∈ out_adj g u -> exists l, level st !! w = Some l /\ l <> INFTY;
  inv_measure : (count_unvisited (level st) + k
                 + (if is_empty (frontier st) then 0 else 1) <= vert_count g)%nat
}.

Arguments inv_depth {g src k st} _.
Arguments inv_length {g src k st} _.
Arguments inv_src {g src k st} _.
Arguments inv_sound {g src k st} _ v l _ _.
Arguments inv_frontier {g src k st} _ v.
Arguments inv_closed {g src k st} _ u n w _ _ _.
Arguments inv_measure {g src k st} _.


(** The state of the reference traversal while it works on level [k]: the
    queue is [A ++ B], [A] the vertices of level [k] still to expand and [B]
    the vertices of level [k + 1] found so far. *)
Record SInv (g : Graph) (src : nat) (k : nat) (lvl : list Z) (A B : list nat) : Prop := mkSInv {
  s_length : length lvl = vert_count g;
  s_src : lvl !! src = Some 0;
  s_sound : forall v l, lvl !! v = Some l -> l <> INFTY ->
              exists n : nat, l = Z.of_nat n /\ (n <= S k)%nat /\ dist g src v n;
  s_now : forall u, u ∈ A -> lvl !! u = Some (Z.of_nat k);
  s_next : forall w, w ∈ B <-> lvl !! w = Some (Z.of_nat (S k));
  s_closed : forall u n w, lvl !! u = Some (Z.of_nat n) ->
               (n < k)%nat \/ (n = k /\ u ∉ A) ->
               w ∈ out_adj g u -> exists l, lvl !! w = Some l /\ l <> INFTY;
  s_depth : A ++ B <> [] ->
            (count_unvisited lvl + k + 1 + length B <= vert_count g)%nat
}.

Arguments s_length {g src k lvl A B} _.
Arguments s_src {g src k lvl A B} _.
Arguments s_sound {g src k lvl A B} _ v l _ _.
Arguments s_now {g src k lvl A B} _ u _.
Arguments s_next {g src k lvl A B} _ w.
Arguments s_closed {g src k lvl A B} _ u n w _ _ _.
Arguments s_depth {g src k lvl A B} _ _.


(** A small graph to run the definitions on: edges 0-1, 0-2, 1-3, 2-3, and
    the vertex 4 on its own. *)
Definition diamond : Graph :=
  mkGraph 5 (mkCSR [0; 2; 3; 4; 4; 4] [1; 2; 3; 3])
            (mkCSR [0; 0; 1; 2; 4; 4] [0; 0; 1; 2]).

(** A level array that records the distances from [src]: one cell for each
    vertex, the distance for every vertex that is reached, and no level but
    a distance. *)
Definition bfs_levels (g : Graph) (src : nat) (lvl : list Z) : Prop :=
  length lvl = vert_count g /\
  (forall v m, walk g src v m ->
     exists d : nat, dist g src v d /\ lvl !! v = Some (Z.of_nat d)) /\
  (forall v l, lvl !! v = Some l -> l <> INFTY ->
     exists n : nat, l = Z.of_nat n /\ dist g src v n).

(** A configuration with low thresholds, under which [diamond] takes the
    engine through the bottom-up stepper, the bitmap form and the bins. *)
Definition eager : Config := mkConfig 0 512 256 1 1024 (1 # 100) (4 # 10) 2.

(** ** A graph in layers *)







(** ** More of the two headers *)

(** The macro table after [#ifndef n] / [#define n d] / [#endif]. *)
Definition ifndef_define (n : string) (d : MacroDef) (m : gmap string MacroDef)
  : gmap string MacroDef :=
  match m !! n with
  | Some _ => m
  | None => <[n := d]> m
  end.

(** A use of [H_ERR]: the file and the line of the use, and the error code
    the checked call gave. *)
Definition Check : Type := string * Z * Z.

(** A run of [H_ERR( ... );] statements one after the other, as the callers
    of the CUDA runtime write them. *)
Fixpoint H_ERR_all (cudaGetErrorString : Z -> string) (checks : list Check) : Run unit :=
  match checks with
  | [] => ret tt
  | (file, line, err) :: rest =>
      H_ERR cudaGetErrorString file line err ;; H_ERR_all cudaGetErrorString rest
  end.

(** The first check whose error code is not [cudaSuccess]. *)
Definition first_failure (checks : list Check) : option Check :=
  List.find (fun c => negb (c.2 =? cudaSuccess)) checks.

(** The macro table [util.h] leaves when its include guard lets it in. *)
Definition util_h_macros (m : gmap string MacroDef) : gmap string MacroDef :=
  (ifndef_define "BLKS_NUM" (int_lit 512)
    (ifndef_define "THDS_NUM" (int_lit 512)
       (ifndef_define "GPUID" (int_lit 0)
          (<["SWITCH_BACK" := ObjectLike (Some (ECast TFloat (EDec (4 # 10))))]>
             (<["SWITCH_TO" := ObjectLike (Some (ECast TFloat (EDec (2 # 10))))]>
                (<["MID_LRG" := int_lit 1024]>
                   (<["SML_MID" := int_lit 32]>
                      (<["H_ERR" := FunctionLike ["err"]
                                      "(HandleError( err, __FILE__, __LINE__ ))"]>
                         (<["UTIL_H" := ObjectLike None]> m)))))))))%string.

(** The macro table and the typedef table [header.h] leaves when its include
    guard lets it in. *)
Definition header_h_macros (m : gmap string MacroDef) : gmap string MacroDef :=
  (<["BIN_SZ" := int_lit 8192]>
     (<["BLKS_NUM" := int_lit 256]>
        (<["INFTY" := ObjectLike (Some (ECast TInt (ENeg (EInt 1))))]>
           (<["HEADER_H" := ObjectLike None]> m))))%string.

Definition header_h_typedefs (t : gmap string CType) : gmap string CType :=
  (<["bit_t" := TUChar]>
     (<["weight_t" := TInt]>
        (<["feature_t" := TInt]>
           (<["vertex_t" := TUInt]>
              (<["index_t" := TInt]> t)))))%string.

(** The macro names [util.h] and [header.h] define. *)
Definition util_h_names : list string :=
  ["UTIL_H"; "H_ERR"; "SML_MID"; "MID_LRG"; "SWITCH_TO"; "SWITCH_BACK";
   "GPUID"; "THDS_NUM"; "BLKS_NUM"]%string.

Definition header_h_names : list string :=
  ["HEADER_H"; "INFTY"; "BLKS_NUM"; "BIN_SZ"]%string.

(** The words a type and a constant expression are written with. *)
Definition type_words (t : CType) : list string :=
  match t with
  | TInt => ["int"]
  | TUInt => ["unsigned"; "int"]
  | TUChar => ["unsigned"; "char"]
  | TFloat => ["float"]
  | TDouble => ["double"]
  end%string.

Fixpoint expr_words (e : CExpr) : list string :=
  match e with
  | EInt _ | EDec _ => []
  | ENeg e => expr_words e
  | ECast t e => type_words t ++ expr_words e
  end.

(** The value of a use of the object-like macro [n] under the table [st].
    Where a macro is used its replacement list is scanned again for macro
    names, so the list has the value it is written with only if none of its
    words is the name of a macro; otherwise no value is given here. *)
Definition macro_use (st : PP) (n : string) : option CValue :=
  match macros st !! n with
  | Some (ObjectLike (Some e)) =>
      if forallb (fun w => bool_decide (macros st !! w = None)) (expr_words e)
      then Some (eval e)
      else None
  | _ => None
  end.

(** The tables a translation unit can have after [util.h], and after
    [header.h]: after the header alone, and after both headers in either
    order. *)
Definition after_util_h (st : PP) : list PP :=
  [ preprocess util_h st;
    preprocess (util_h ++ header_h) st;
    preprocess (header_h ++ util_h) st ].

Definition after_header_h (st : PP) : list PP :=
  [ preprocess header_h st;
    preprocess (header_h ++ util_h) st;
    preprocess (util_h ++ header_h) st ].

(** The definitions [util.h] gives without asking whether the names are
    defined. *)
Definition util_h_fixed (tu : PP) : Prop :=
  macros tu !! "SML_MID"%string = Some (int_lit 32) /\
  macros tu !! "MID_LRG"%string = Some (int_lit 1024) /\
  macros tu !! "SWITCH_TO"%string
    = Some (ObjectLike (Some (ECast TFloat (EDec (2 # 10))))) /\
  macros tu !! "SWITCH_BACK"%string
    = Some (ObjectLike (Some (ECast TFloat (EDec (4 # 10))))) /\
  macros tu !! "H_ERR"%string
    = Some (FunctionLike ["err"%string] "(HandleError( err, __FILE__, __LINE__ ))").


(* ===================================================================== *)
(** * Part II: properties                                                *)
(* ===================================================================== *)


(** ** The constants and the headers *)

Lemma SWITCH_TO_value : SWITCH_TO = (13421773 # 67108864)%Q.
Proof. vm_compute. reflexivity. Qed.

Lemma SWITCH_BACK_value : SWITCH_BACK = (13421773 # 33554432)%Q.
Proof. vm_compute. reflexivity. Qed.

Lemma INFTY_value : INFTY = -1.
Proof. reflexivity. Qed.

(** The constants of Part I are what the headers define, in the translation
    unit that includes both and is compiled without [-D] options. *)
Lemma constants_from_headers :
  let tu := preprocess (util_h ++ header_h) pp_empty in
  macro_value tu "SML_MID" = Some (VInt SML_MID) /\
  macro_value tu "MID_LRG" = Some (VInt MID_LRG) /\
  macro_value tu "SWITCH_TO" = Some (VFloat SWITCH_TO) /\
  macro_value tu "SWITCH_BACK" = Some (VFloat SWITCH_BACK) /\
  macro_value tu "GPUID" = Some (VInt GPUID) /\
  macro_value tu "THDS_NUM" = Some (VInt THDS_NUM) /\
  macro_value tu "BLKS_NUM" = Some (VInt BLKS_NUM) /\
  macro_value tu "INFTY" = Some (VInt INFTY) /\
  macro_value tu "BIN_SZ" = Some (VInt BIN_SZ).
Proof. vm_compute. repeat split. Qed.

(** After [header.h] the block count is 256, whatever the macro table held
    before (as long as the include guard lets the header in). *)
Lemma header_h_fixes_BLKS_NUM (st : PP) :
  macros st !! "HEADER_H"%string = None ->
  macro_value (preprocess header_h st) "BLKS_NUM" = Some (VInt 256).
Proof.
  intros Hguard. unfold preprocess, header_h, macro_value, int_lit. simpl.
  rewrite Hguard. repeat case_match; simplify_map_eq; reflexivity.
Qed.

(** [util.h] leaves a block count that is already defined as it is. *)
Lemma util_h_keeps_BLKS_NUM (st : PP) (d : MacroDef) :
  macros st !! "BLKS_NUM"%string = Some d ->
  macros (preprocess util_h st) !! "BLKS_NUM"%string = Some d.
Proof.
  intros Hd. unfold preprocess, util_h, int_lit. simpl.
  repeat case_match; simplify_map_eq; reflexivity.
Qed.

(** C3: the ratio thresholds satisfy SWITCH_TO < SWITCH_BACK, each of them is
    below 1.0, and the frontier-size breakpoints satisfy SML_MID < MID_LRG;
    the four values are the ones the translation unit defines (the binary32
    numbers nearest to 0.2 and 0.4, and 32 and 1024). *)
Theorem thresholds_ordered :
  let tu := preprocess (util_h ++ header_h) pp_empty in
  macro_value tu "SWITCH_TO" = Some (VFloat SWITCH_TO) /\
  macro_value tu "SWITCH_BACK" = Some (VFloat SWITCH_BACK) /\
  macro_value tu "SML_MID" = Some (VInt SML_MID) /\
  macro_value tu "MID_LRG" = Some (VInt MID_LRG) /\
  (SWITCH_TO < SWITCH_BACK)%Q /\
  (SWITCH_TO < 1)%Q /\
  (SWITCH_BACK < 1)%Q /\
  (SWITCH_TO == to_float (2 # 10))%Q /\
  (SWITCH_BACK == to_float (4 # 10))%Q /\
  SML_MID = 32 /\ MID_LRG = 1024 /\
  SML_MID < MID_LRG.
Proof. vm_compute. repeat split. Qed.

(** C5, as the spec states it, fails: in the translation unit of
    bfs_high_diameter, whichever header comes first, the configuration
    surface does not have the block count 512. *)
Lemma shipped_BLKS_NUM_is_not_512 :
  ~ config_surface 512 (preprocess (util_h ++ header_h) pp_empty) /\
  ~ config_surface 512 (preprocess (header_h ++ util_h) pp_empty).
Proof.
  split; intros (_ & _ & H & _); vm_compute in H; discriminate H.
Qed.

(** C5, amended: the configuration surface of the translation unit has the
    defaults of the spec except for the block count, which is 256 there; 512
    is the block count of [util.h] taken alone. *)
Theorem shipped_defaults :
  config_surface 256 (preprocess (util_h ++ header_h) pp_empty) /\
  config_surface 256 (preprocess (header_h ++ util_h) pp_empty) /\
  macro_value (preprocess util_h pp_empty) "BLKS_NUM" = Some (VInt 512) /\
  macro_value (preprocess util_h pp_empty) "BIN_SZ" = None /\
  shipped = mkConfig 0 512 256 32 1024 (to_float (2 # 10)) (to_float (4 # 10)) 8192.
Proof. vm_compute. repeat split. Qed.

(** C6, as the spec states it, fails: compiled with [-DBLKS_NUM=96], the
    translation unit that includes [header.h] has the block count 256. *)
Lemma BLKS_NUM_override_lost :
  let tu := preprocess (util_h ++ header_h) (predefine "BLKS_NUM" (EInt 96) pp_empty) in
  macro_value tu "BLKS_NUM" = Some (VInt 256) /\
  macro_value tu "BLKS_NUM" <> Some (VInt 96).
Proof. vm_compute. split; [reflexivity | discriminate]. Qed.

(** C6, amended: the block count is 512 in [util.h] when nothing defines it,
    and there a definition given at compile time stands; in a translation
    unit that includes [header.h] of bfs_high_diameter it is 256, with or
    without such a definition and in either order of the two headers (after
    [header.h] it is 256 whatever the macro table held before). *)
Theorem BLKS_NUM_configurable_in_util_h_only :
  macro_value (preprocess util_h pp_empty) "BLKS_NUM" = Some (VInt 512) /\
  (forall e : CExpr,
     let cmdline := predefine "BLKS_NUM" e pp_empty in
     macro_value (preprocess util_h cmdline) "BLKS_NUM" = Some (eval e) /\
     macro_value (preprocess header_h cmdline) "BLKS_NUM" = Some (VInt 256) /\
     macro_value (preprocess (util_h ++ header_h) cmdline) "BLKS_NUM" = Some (VInt 256) /\
     macro_value (preprocess (header_h ++ util_h) cmdline) "BLKS_NUM" = Some (VInt 256)) /\
  macro_value (preprocess header_h pp_empty) "BLKS_NUM" = Some (VInt 256) /\
  macro_value (preprocess (util_h ++ header_h) pp_empty) "BLKS_NUM" = Some (VInt 256) /\
  macro_value (preprocess (header_h ++ util_h) pp_empty) "BLKS_NUM" = Some (VInt 256) /\
  (forall st : PP,
     macros st !! "HEADER_H"%string = None ->
     macro_value (preprocess header_h st) "BLKS_NUM" = Some (VInt 256) /\
     macro_value (preprocess util_h (preprocess header_h st)) "BLKS_NUM" = Some (VInt 256)) /\
  (forall (st : PP) (d : MacroDef),
     macros st !! "BLKS_NUM"%string = Some d ->
     macros (preprocess util_h st) !! "BLKS_NUM"%string = Some d).
Proof.
  split; [reflexivity |].
  split; [intros e; repeat split; reflexivity |].
  split; [reflexivity |]. split; [reflexivity |]. split; [reflexivity |].
  split; [| apply util_h_keeps_BLKS_NUM].
  intros st Hguard. pose proof (header_h_fixes_BLKS_NUM st Hguard) as Hfix.
  split; [exact Hfix |].
  unfold macro_value in *.
  destruct (macros (preprocess header_h st) !! "BLKS_NUM"%string) as [d |] eqn:Hd; [| done].
  by rewrite (util_h_keeps_BLKS_NUM _ d Hd).
Qed.

(** ** The error handler *)

Lemma append_assoc (a b c : string) : (a +:+ b) +:+ c = a +:+ b +:+ c.
Proof.
  induction a as [| ch a IH]; [reflexivity |].
  change (String ch ((a +:+ b) +:+ c) = String ch (a +:+ b +:+ c)).
  by f_equal.
Qed.

Lemma format_error_mentions (description file : string) (line : Z) :
  occurs_in description (format_error description file line) /\
  occurs_in file (format_error description file line) /\
  occurs_in (pretty line) (format_error description file line).
Proof.
  unfold occurs_in, format_error. repeat split.
  - exists ""%string. eexists. reflexivity.
  - exists (description +:+ " in ")%string. eexists.
    rewrite append_assoc. reflexivity.
  - exists (description +:+ " in " +:+ file +:+ " at line ")%string. eexists.
    rewrite !append_assoc. reflexivity.
Qed.

(** C4: [HandleError] ends the process exactly when [err] is not
    [cudaSuccess], and then with the non-zero status [EXIT_FAILURE], after one
    call of printf whose text holds the description of the error, the file
    and the line; on [cudaSuccess] it returns and writes nothing.  There is
    one pass through the handler in either case: nothing is tried again.
    [H_ERR] is the same call with the place of the macro's use. *)
Theorem HandleError_fail_fast
    (cudaGetErrorString : Z -> string) (err : Z) (file : string) (line : Z) :
  let r := HandleError cudaGetErrorString err file line in
  ((exists status, outcome r = Exited status /\ status <> 0) <-> err <> cudaSuccess) /\
  (err <> cudaSuccess ->
     exists msg,
       r = mkRun [msg] (Exited EXIT_FAILURE) /\
       msg = format_error (cudaGetErrorString err) file line /\
       occurs_in (cudaGetErrorString err) msg /\
       occurs_in file msg /\
       occurs_in (pretty line) msg) /\
  (err = cudaSuccess -> r = mkRun [] (Returned tt)) /\
  H_ERR cudaGetErrorString file line err = r.
Proof.
  intros r. subst r. unfold H_ERR, HandleError.
  destruct (Z.eqb_spec err cudaSuccess) as [Heq | Hne]; simpl.
  - repeat split.
    + intros (status & Hout & _). discriminate Hout.
    + intros Hne. contradiction.
    + intros Hne. contradiction.
  - repeat split.
    + intros _. exact Hne.
    + intros _. exists EXIT_FAILURE. split; [reflexivity | discriminate].
    + intros _. eexists. split; [reflexivity |]. split; [reflexivity |].
      apply format_error_mentions.
    + intros Heq. contradiction.
Qed.

(** ** The Strategy Selector *)

Lemma Strategy_eqb_eq (a b : Strategy) : Strategy_eqb a b = true <-> a = b.
Proof. destruct a, b; simpl; split; congruence. Qed.

Lemma Strategy_eqb_refl (a : Strategy) : Strategy_eqb a a = true.
Proof. by destruct a. Qed.

Lemma region_eqb_eq (a b : bool * bool) : region_eqb a b = true <-> a = b.
Proof.
  destruct a as [[] []], b as [[] []]; unfold region_eqb; simpl; split;
    congruence.
Qed.

(** The next state depends on the input through its region only. *)
Lemma select_region (cfg : Config) (s : Strategy) (i j : Z * Q) :
  region cfg i = region cfg j ->
  select cfg s i.1 i.2 = select cfg s j.1 j.2.
Proof.
  unfold region, select. intros [= H1 H2]. by rewrite H1, H2.
Qed.

(** Outside the overlap of the two transitions a second level with the same
    input changes nothing. *)
Lemma select_settles (cfg : Config) (s : Strategy) (i : Z * Q) :
  in_overlap cfg i = false ->
  select cfg (select cfg s i.1 i.2) i.1 i.2 = select cfg s i.1 i.2.
Proof.
  unfold in_overlap, select.
  destruct s, (to_bottom_up cfg i.1 i.2), (to_top_down cfg i.1 i.2);
    simpl; congruence.
Qed.

(** Inside the overlap every level changes the strategy. *)
Lemma select_flips (cfg : Config) (s : Strategy) (i : Z * Q) :
  in_overlap cfg i = true ->
  Strategy_eqb s (select cfg s i.1 i.2) = false.
Proof.
  unfold in_overlap, select. intros [-> ->]%andb_true_iff. by destruct s.
Qed.

Lemma switch_count_after (cfg : Config) (prev : Z * Q) (s : Strategy) (inputs : list (Z * Q)) :
  in_overlap cfg prev = true \/ select cfg s prev.1 prev.2 = s ->
  (switch_count cfg s inputs
   <= overlap_count cfg inputs + region_changes cfg (prev :: inputs))%nat.
Proof.
  revert prev s. induction inputs as [| i rest IH]; intros prev s Hprev.
  - simpl. lia.
  - destruct i as [F r].
    assert (Hrest : (switch_count cfg (select cfg s F r) rest
                     <= overlap_count cfg rest + region_changes cfg ((F, r) :: rest))%nat).
    { apply IH. destruct (in_overlap cfg (F, r)) eqn:Hov; [by left | right].
      by apply (select_settles cfg s (F, r)). }
    change (switch_count cfg s ((F, r) :: rest))
      with ((if Strategy_eqb s (select cfg s F r) then 0 else 1)
            + switch_count cfg (select cfg s F r) rest)%nat.
    change (region_changes cfg (prev :: (F, r) :: rest))
      with ((if region_eqb (region cfg prev) (region cfg (F, r)) then 0 else 1)
            + region_changes cfg ((F, r) :: rest))%nat.
    unfold overlap_count in *. simpl List.filter.
    destruct (in_overlap cfg (F, r)) eqn:Hov.
    { simpl length. destruct (Strategy_eqb s (select cfg s F r)); lia. }
    destruct (region_eqb (region cfg prev) (region cfg (F, r))) eqn:Hreg.
    2:{ destruct (Strategy_eqb s (select cfg s F r)); lia. }
    apply region_eqb_eq in Hreg.
    assert (Hsame : select cfg s F r = s).
    { destruct Hprev as [Hprev | Hprev].
      - unfold in_overlap, region in *. simpl in *. congruence.
      - rewrite <- Hprev at 2. symmetry. by apply (select_region cfg s prev (F, r)). }
    rewrite Hsame, Strategy_eqb_refl. rewrite Hsame in Hrest. lia.
Qed.

Lemma switch_count_bound (cfg : Config) (s : Strategy) (inputs : list (Z * Q)) :
  (switch_count cfg s inputs
   <= 1 + overlap_count cfg inputs + region_changes cfg inputs)%nat.
Proof.
  destruct inputs as [| [F r] rest]; [simpl; lia |].
  pose proof (switch_count_after cfg (F, r) (select cfg s F r) rest) as H.
  change (switch_count cfg s ((F, r) :: rest))
    with ((if Strategy_eqb s (select cfg s F r) then 0 else 1)
          + switch_count cfg (select cfg s F r) rest)%nat.
  assert (Hov : (overlap_count cfg rest <= overlap_count cfg ((F, r) :: rest))%nat).
  { unfold overlap_count. simpl. destruct (in_overlap cfg (F, r)); simpl; lia. }
  destruct (in_overlap cfg (F, r)) eqn:Hin.
  - specialize (H (or_introl eq_refl)).
    destruct (Strategy_eqb s (select cfg s F r)); lia.
  - specialize (H (or_intror (select_settles cfg s (F, r) Hin))).
    destruct (Strategy_eqb s (select cfg s F r)); lia.
Qed.

Lemma switch_count_constant_inside (cfg : Config) (i : Z * Q) (n : nat) (s : Strategy) :
  in_overlap cfg i = true -> switch_count cfg s (repeat i n) = n.
Proof.
  intros Hin. revert s. induction n as [| n IH]; intros s; [reflexivity |].
  destruct i as [F r].
  pose proof (select_flips cfg s (F, r) Hin) as Hflip. simpl in Hflip.
  simpl. by rewrite Hflip, IH.
Qed.

Lemma overlap_count_repeat_outside (cfg : Config) (i : Z * Q) (n : nat) :
  in_overlap cfg i = false -> overlap_count cfg (repeat i n) = 0%nat.
Proof.
  intros Hout. unfold overlap_count.
  induction n as [| n IH]; simpl; [reflexivity |]. by rewrite Hout.
Qed.

Lemma region_changes_repeat (cfg : Config) (i : Z * Q) (n : nat) :
  region_changes cfg (repeat i n) = 0%nat.
Proof.
  induction n as [| n IH]; [reflexivity |].
  destruct n as [| n]; [reflexivity |].
  change (repeat i (S (S n))) with (i :: repeat i (S n)).
  change (region_changes cfg (i :: repeat i (S n)))
    with ((if region_eqb (region cfg i) (region cfg i) then 0 else 1)
          + region_changes cfg (repeat i (S n)))%nat.
  rewrite IH. by rewrite (proj2 (region_eqb_eq _ _) eq_refl).
Qed.


(** Outside the overlap of the two guards the selector is steady: an input
    that stays the same from level to level changes the strategy at most
    once, whatever the state and the number of levels; and for any inputs the
    number of changes is at most one, plus the number of levels whose input
    lies in the overlap, plus the number of levels whose input enables other
    transitions than the input of the level before.  With the shipped
    thresholds the overlap is [SML_MID <= F < MID_LRG] with
    [SWITCH_TO <= D/E < SWITCH_BACK]. *)
Lemma selector_steady_outside_overlap (s : Strategy) (inputs : list (Z * Q)) :
  (switch_count shipped s inputs
   <= 1 + overlap_count shipped inputs + region_changes shipped inputs)%nat /\
  (forall (F : Z) (r : Q) (n : nat),
     in_overlap shipped (F, r) = false ->
     (switch_count shipped s (repeat (F, r) n) <= 1)%nat).
Proof.
  split; [apply switch_count_bound |].
  intros F r n Hout.
  pose proof (switch_count_bound shipped s (repeat (F, r) n)) as H.
  rewrite (overlap_count_repeat_outside _ _ _ Hout), region_changes_repeat in H.
  lia.
Qed.


(** ** Claims *)

Lemma count_unvisited_insert (lvl : list Z) (w : nat) (x : Z) :
  lvl !! w = Some INFTY -> x <> INFTY ->
  (count_unvisited (<[w := x]> lvl) + 1 = count_unvisited lvl)%nat.
Proof.
  unfold count_unvisited. revert w.
  induction lvl as [| l lvl IH]; intros w Hw Hx; [done |].
  destruct w as [| w]; simpl in *.
  - injection Hw as ->. rewrite Z.eqb_refl.
    destruct (Z.eqb_spec x INFTY); [done | simpl; lia].
  - specialize (IH w Hw Hx). destruct (l =? INFTY); simpl; lia.
Qed.

Section Claims.
Variable x : Z.
Hypothesis x_visited : x <> INFTY.

Lemma claim_unvisited (st : list Z * list nat) (w : nat) :
  st.1 !! w = Some INFTY -> claim x st w = (<[w := x]> st.1, st.2 ++ [w]).
Proof. intros H. unfold claim. by rewrite H, Z.eqb_refl. Qed.

Lemma claim_visited (st : list Z * list nat) (w : nat) :
  st.1 !! w <> Some INFTY -> claim x st w = st.
Proof.
  intros H. unfold claim. destruct (st.1 !! w) as [l |] eqn:E; [| done].
  destruct (Z.eqb_spec l INFTY) as [-> | _]; [done | done].
Qed.

Lemma claim_cases (st : list Z * list nat) (w : nat) :
  (st.1 !! w = Some INFTY /\ claim x st w = (<[w := x]> st.1, st.2 ++ [w])) \/
  (st.1 !! w <> Some INFTY /\ claim x st w = st).
Proof.
  destruct (decide (st.1 !! w = Some INFTY)) as [H | H].
  - left. split; [done | by apply claim_unvisited].
  - right. split; [done | by apply claim_visited].
Qed.

Lemma claims_cons (w : nat) (ws : list nat) (st : list Z * list nat) :
  claims x (w :: ws) st = claims x ws (claim x st w).
Proof. reflexivity. Qed.

Lemma claims_length (ws : list nat) (st : list Z * list nat) :
  length (claims x ws st).1 = length st.1.
Proof.
  revert st. induction ws as [| w ws IH]; intros st; [done |].
  rewrite claims_cons, IH.
  destruct (claim_cases st w) as [[_ ->] | [_ ->]]; [apply length_insert | done].
Qed.

(** A level that is set is never written again. *)
Lemma claims_keeps (ws : list nat) (st : list Z * list nat) (v : nat) (l : Z) :
  st.1 !! v = Some l -> l <> INFTY -> (claims x ws st).1 !! v = Some l.
Proof.
  revert st. induction ws as [| w ws IH]; intros st Hv Hl; [done |].
  rewrite claims_cons. apply IH; [| done].
  destruct (claim_cases st w) as [[Hw ->] | [_ ->]]; [| done].
  simpl. rewrite list_lookup_insert_ne; [done |]. intros ->. congruence.
Qed.

Lemma claims_other (ws : list nat) (st : list Z * list nat) (v : nat) :
  v ∉ ws -> (claims x ws st).1 !! v = st.1 !! v.
Proof.
  revert st. induction ws as [| w ws IH]; intros st Hv; [done |].
  apply not_elem_of_cons in Hv as [Hne Hv].
  rewrite claims_cons, IH by done.
  destruct (claim_cases st w) as [[_ ->] | [_ ->]]; [| done].
  simpl. by rewrite list_lookup_insert_ne.
Qed.

Lemma claims_sets (ws : list nat) (st : list Z * list nat) (v : nat) :
  v ∈ ws -> st.1 !! v = Some INFTY -> (claims x ws st).1 !! v = Some x.
Proof.
  revert st. induction ws as [| w ws IH]; intros st Hv Hun.
  - by apply elem_of_nil in Hv.
  - rewrite claims_cons. destruct (decide (v = w)) as [-> | Hne].
    + apply claims_keeps; [| done]. rewrite claim_unvisited by done. simpl.
      apply list_lookup_insert_eq. by apply lookup_lt_Some in Hun.
    + apply elem_of_cons in Hv as [Hv | Hv]; [done |].
      apply IH; [done |].
      destruct (claim_cases st w) as [[_ ->] | [_ ->]]; [| done].
      simpl. by rewrite list_lookup_insert_ne.
Qed.

Lemma claims_next (ws : list nat) (st : list Z * list nat) (v : nat) :
  v ∈ (claims x ws st).2 <-> v ∈ st.2 \/ (v ∈ ws /\ st.1 !! v = Some INFTY).
Proof.
  revert st. induction ws as [| w ws IH]; intros st.
  - simpl. split; [by left |]. intros [H | [H _]]; [done | by apply elem_of_nil in H].
  - rewrite claims_cons, IH.
    destruct (claim_cases st w) as [[Hw ->] | [Hw ->]]; simpl.
    + rewrite elem_of_app, list_elem_of_singleton, elem_of_cons.
      split.
      * intros [[H | ->] | [Hin Hun]]; [by left | right; split; [by left | done] |].
        right. split; [by right |].
        destruct (decide (w = v)) as [-> | Hne]; [done |].
        by rewrite list_lookup_insert_ne in Hun.
      * intros [H | [[-> | Hin] Hun]]; [by left; left | by left; right |].
        destruct (decide (w = v)) as [-> | Hne]; [by left; right |].
        right. split; [done |]. by rewrite list_lookup_insert_ne.
    + rewrite elem_of_cons. split.
      * intros [H | [Hin Hun]]; [by left | right; split; [by right | done]].
      * intros [H | [[-> | Hin] Hun]]; [by left | done | by right].
Qed.

Lemma claims_count (ws : list nat) (st : list Z * list nat) :
  (count_unvisited (claims x ws st).1 + length (claims x ws st).2
   = count_unvisited st.1 + length st.2)%nat.
Proof.
  revert st. induction ws as [| w ws IH]; intros st; [done |].
  rewrite claims_cons, IH.
  destruct (claim_cases st w) as [[Hw ->] | [_ ->]]; [| done].
  simpl. rewrite length_app. simpl.
  pose proof (count_unvisited_insert st.1 w x Hw x_visited). lia.
Qed.

(** The claims of a level, started with no winner yet. *)
Lemma claims_level_in (ws : list nat) (lvl : list Z) (v : nat) :
  v ∈ (claims x ws (lvl, [])).2 -> (claims x ws (lvl, [])).1 !! v = Some x.
Proof.
  intros [H | [Hin Hun]]%claims_next; [by apply elem_of_nil in H |].
  by apply claims_sets.
Qed.

Lemma claims_level_out (ws : list nat) (lvl : list Z) (v : nat) :
  v ∉ (claims x ws (lvl, [])).2 -> (claims x ws (lvl, [])).1 !! v = lvl !! v.
Proof.
  intros Hout. rewrite claims_next in Hout.
  destruct (decide (v ∈ ws)) as [Hin | Hnotin]; [| by apply claims_other].
  destruct (lvl !! v) as [l |] eqn:E.
  - apply claims_keeps; [done |]. intros ->. apply Hout. by right.
  - apply lookup_ge_None. rewrite claims_length. by apply lookup_ge_None.
Qed.

End Claims.
(** ** Graphs *)

Lemma in_range_index_t (z : Z) : in_range index_t z = true <-> int_min <= z <= int_max.
Proof. unfold in_range. simpl. rewrite andb_true_iff, !Z.leb_le. tauto. Qed.

Lemma in_range_vertex_t (z : Z) : in_range vertex_t z = true <-> 0 <= z <= uint_max.
Proof. unfold in_range. simpl. rewrite andb_true_iff, !Z.leb_le. tauto. Qed.

Lemma row_neighbors (c : CSR) (v w : nat) :
  w ∈ row c v -> exists z, z ∈ neighbors c /\ w = Z.to_nat z.
Proof.
  unfold row. destruct (offsets c !! v) as [b |]; [| by intros ?%elem_of_nil].
  destruct (offsets c !! S v) as [e |]; [| by intros ?%elem_of_nil].
  intros (z & -> & Hz)%list_elem_of_fmap. exists z. split; [| done].
  by apply (subseteq_drop (Z.to_nat b)), (subseteq_take (Z.to_nat (e - b))).
Qed.

Lemma row_outside (V : nat) (c : CSR) (v : nat) :
  length (offsets c) = S V -> (V <= v)%nat -> row c v = [].
Proof.
  intros Hlen Hv. unfold row.
  assert (offsets c !! S v = None) as -> by (apply lookup_ge_None; lia).
  by destruct (offsets c !! v).
Qed.

Lemma csr_wf_length (V : nat) (c : CSR) :
  csr_wf V c = true -> length (offsets c) = S V.
Proof.
  unfold csr_wf. rewrite !andb_true_iff, !bool_decide_eq_true. tauto.
Qed.

Lemma csr_wf_row (V : nat) (c : CSR) (v w : nat) :
  csr_wf V c = true -> w ∈ row c v -> (w < V)%nat.
Proof.
  unfold csr_wf. rewrite !andb_true_iff, !forallb_forall.
  intros [[[[[[_ _] Hty] _] _] _] Hlt] (z & Hz & ->)%row_neighbors.
  apply list_elem_of_In in Hz.
  specialize (Hty z Hz). specialize (Hlt z Hz).
  apply in_range_vertex_t in Hty. apply Z.ltb_lt in Hlt. lia.
Qed.

Section GraphFacts.
Variable g : Graph.
Hypothesis g_wf : graph_wf g = true.

Lemma wf_out : csr_wf (vert_count g) (out_csr g) = true.
Proof. revert g_wf. unfold graph_wf. rewrite !andb_true_iff. tauto. Qed.

Lemma wf_in : csr_wf (vert_count g) (in_csr g) = true.
Proof. revert g_wf. unfold graph_wf. rewrite !andb_true_iff. tauto. Qed.

Lemma wf_vert_count : Z.of_nat (vert_count g) <= int_max.
Proof.
  revert g_wf. unfold graph_wf. rewrite !andb_true_iff, in_range_index_t. tauto.
Qed.

Lemma out_adj_bound (u v : nat) : v ∈ out_adj g u -> (v < vert_count g)%nat.
Proof. apply csr_wf_row, wf_out. Qed.

Lemma in_adj_bound (u v : nat) : u ∈ in_adj g v -> (u < vert_count g)%nat.
Proof. apply csr_wf_row, wf_in. Qed.

Lemma out_adj_source (u v : nat) : v ∈ out_adj g u -> (u < vert_count g)%nat.
Proof.
  intros Hv. destruct (decide (u < vert_count g)%nat) as [| Hge]; [done |].
  unfold out_adj in Hv.
  rewrite (row_outside (vert_count g)) in Hv; [by apply elem_of_nil in Hv | | lia].
  apply csr_wf_length, wf_out.
Qed.

Lemma in_adj_target (u v : nat) : u ∈ in_adj g v -> (v < vert_count g)%nat.
Proof.
  intros Hu. destruct (decide (v < vert_count g)%nat) as [| Hge]; [done |].
  unfold in_adj in Hu.
  rewrite (row_outside (vert_count g)) in Hu; [by apply elem_of_nil in Hu | | lia].
  apply csr_wf_length, wf_in.
Qed.

Lemma out_in (u v : nat) : v ∈ out_adj g u -> u ∈ in_adj g v.
Proof.
  intros Hv. pose proof (out_adj_source u v Hv) as Hu.
  revert g_wf. unfold graph_wf, transposed.
  rewrite !andb_true_iff, !forallb_forall.
  intros [_ [Hfwd _]].
  assert (Hin : In u (seq 0 (vert_count g))) by (apply in_seq; lia).
  specialize (Hfwd u Hin). rewrite forallb_forall in Hfwd.
  apply list_elem_of_In in Hv. specialize (Hfwd v Hv).
  by apply bool_decide_eq_true in Hfwd.
Qed.

Lemma in_out (u v : nat) : u ∈ in_adj g v -> v ∈ out_adj g u.
Proof.
  intros Hu. pose proof (in_adj_target u v Hu) as Hv.
  revert g_wf. unfold graph_wf, transposed.
  rewrite !andb_true_iff, !forallb_forall.
  intros [_ [_ Hbwd]].
  assert (Hin : In v (seq 0 (vert_count g))) by (apply in_seq; lia).
  specialize (Hbwd v Hin). rewrite forallb_forall in Hbwd.
  apply list_elem_of_In in Hu. specialize (Hbwd u Hu).
  by apply bool_decide_eq_true in Hbwd.
Qed.

End GraphFacts.

Lemma dist_unique (g : Graph) (s v n m : nat) :
  dist g s v n -> dist g s v m -> n = m.
Proof.
  intros [Hn Hminn] [Hm Hminm]. specialize (Hminn m Hm). specialize (Hminm n Hn). lia.
Qed.

(** ** Frontier Store *)

Lemma to_bitmap_length (V : nat) (vs : list nat) : length (to_bitmap V vs) = V.
Proof.
  unfold to_bitmap.
  assert (H : forall bits : list bool,
             length (fold_left (fun bits v => <[v := true]> bits) vs bits) = length bits).
  { induction vs as [| v vs IH]; intros bits; [done |]. simpl.
    by rewrite IH, length_insert. }
  by rewrite H, length_replicate.
Qed.

Lemma to_bitmap_lookup (V : nat) (vs : list nat) (v : nat) :
  to_bitmap V vs !! v = Some true <-> v ∈ vs /\ (v < V)%nat.
Proof.
  unfold to_bitmap.
  assert (H : forall bits : list bool,
             fold_left (fun bits v => <[v := true]> bits) vs bits !! v = Some true
             <-> (v ∈ vs /\ (v < length bits)%nat) \/ bits !! v = Some true).
  { induction vs as [| w vs IH]; intros bits; simpl.
    - split; [by right |]. intros [[?%elem_of_nil _] | ?]; done.
    - rewrite IH, length_insert, elem_of_cons. split.
      + intros [[Hin Hlt] | Hset]; [left; split; [by right | done] |].
        destruct (decide (w = v)) as [-> | Hne].
        * left. split; [by left |]. apply lookup_lt_Some in Hset.
          by rewrite length_insert in Hset.
        * right. by rewrite list_lookup_insert_ne in Hset.
      + intros [[[-> | Hin] Hlt] | Hset].
        * right. by apply list_lookup_insert_eq.
        * by left.
        * right. destruct (decide (w = v)) as [-> | Hne].
          -- apply list_lookup_insert_eq. by apply lookup_lt_Some in Hset.
          -- by rewrite list_lookup_insert_ne. }
  rewrite H, length_replicate. split.
  - intros [? | Hrep]; [done |]. apply lookup_replicate in Hrep as [? _]. done.
  - intros ?. by left.
Qed.

Lemma members_Bitmap (bits : list bool) (v : nat) :
  v ∈ members (Bitmap bits) <-> bits !! v = Some true.
Proof.
  simpl. rewrite list_elem_of_In, filter_In, in_seq. unfold bit_set.
  rewrite bool_decide_eq_true. split; [tauto |].
  intros H. split; [| done]. apply lookup_lt_Some in H. lia.
Qed.

Lemma bit_set_members (bits : list bool) (v : nat) :
  bit_set bits v = true <-> v ∈ members (Bitmap bits).
Proof. rewrite members_Bitmap. unfold bit_set. apply bool_decide_eq_true. Qed.

Lemma members_representationFor (cfg : Config) (V : nat) (vs : list nat) (v : nat) :
  (forall w, w ∈ vs -> (w < V)%nat) ->
  v ∈ members (representationFor cfg V vs) <-> v ∈ vs.
Proof.
  intros Hbound. unfold representationFor.
  destruct (Z.of_nat (length vs) <? sml_mid cfg); [done |].
  rewrite members_Bitmap, to_bitmap_lookup. split; [tauto |]. auto.
Qed.

Lemma as_bitmap_members (V : nat) (f : Frontier) (v : nat) :
  (forall w, w ∈ members f -> (w < V)%nat) ->
  bit_set (as_bitmap V f) v = true <-> v ∈ members f.
Proof.
  intros Hbound. destruct f as [q | bits]; [| apply bit_set_members].
  unfold bit_set. simpl in *. rewrite bool_decide_eq_true, to_bitmap_lookup.
  split; [tauto |]. auto.
Qed.

Lemma is_empty_members (f : Frontier) : is_empty f = true <-> members f = [].
Proof. unfold is_empty. destruct (members f); split; congruence. Qed.

Lemma is_empty_false (f : Frontier) : is_empty f = false <-> exists v, v ∈ members f.
Proof.
  unfold is_empty. destruct (members f) as [| v vs]; split; try congruence.
  - intros [v ?%elem_of_nil]. done.
  - intros _. exists v. by left.
Qed.

(** ** Binning *)

Lemma assign_bins_items (size p : Z) (items : list WorkItem) (tagged : list (Z * WorkItem)) :
  assign_bins size p items = Some tagged -> snd <$> tagged = items.
Proof.
  revert p tagged. induction items as [| [u d] items IH]; intros p tagged; simpl.
  - by intros [= <-].
  - destruct (c_div p size) as [b |]; [| done].
    destruct (assign_bins size (to_int (p + d)) items) as [rest |] eqn:E; [| done].
    intros [= <-]. rewrite fmap_cons. f_equal. by apply (IH _ _ E).
Qed.

Lemma assign_bins_defined (size p : Z) (items : list WorkItem) :
  size <> 0 -> exists tagged, assign_bins size p items = Some tagged.
Proof.
  intros Hsize. revert p. induction items as [| [u d] items IH]; intros p; simpl.
  - by eexists.
  - unfold c_div. destruct (Z.eqb_spec size 0) as [| _]; [done |].
    destruct (IH (to_int (p + d))) as [rest ->]. by eexists.
Qed.

Lemma group_bins_items (size : Z) (tagged : list (Z * WorkItem)) :
  flat_map snd (group_bins size tagged) = snd <$> tagged.
Proof.
  induction tagged as [| [b w] tagged IH]; [done |].
  rewrite fmap_cons, <- IH. simpl.
  destruct (group_bins size tagged) as [| [b' ws] groups]; [done |].
  by destruct ((b =? b') && negb (oversized size w) && negb (existsb (oversized size) ws)).
Qed.

(** A vertex whose degree is above the bin size is alone in its bin. *)
Lemma group_bins_oversized (size : Z) (tagged : list (Z * WorkItem)) (b : Z) (ws : list WorkItem) :
  (b, ws) ∈ group_bins size tagged ->
  existsb (oversized size) ws = true -> length ws = 1%nat.
Proof.
  revert b ws. induction tagged as [| [b0 w] tagged IH]; intros b ws; simpl.
  - by intros ?%elem_of_nil.
  - destruct (group_bins size tagged) as [| [b' ws'] groups].
    + intros [= -> ->]%list_elem_of_singleton. done.
    + destruct ((b0 =? b') && negb (oversized size w)
                && negb (existsb (oversized size) ws')) eqn:Hc.
      * apply andb_true_iff in Hc as [[_ Hw%negb_true_iff]%andb_true_iff Hws%negb_true_iff].
        intros [[= -> ->] | Hin]%elem_of_cons Hbig.
        -- simpl in Hbig. rewrite Hw, Hws in Hbig. done.
        -- apply (IH b ws); [by right | done].
      * intros [[= -> ->] | Hin]%elem_of_cons Hbig; [done |]. by apply (IH b ws).
Qed.

Section Work.
Variable cfg : Config.
Variable g : Graph.

Lemma expand_app (a b : list WorkItem) : expand g (a ++ b) = expand g a ++ expand g b.
Proof. unfold expand. apply flat_map_app. Qed.

Lemma expand_groups (groups : list (Z * list WorkItem)) :
  flat_map (fun b => expand g b.2) groups = expand g (flat_map snd groups).
Proof.
  induction groups as [| [b ws] groups IH]; [done |]. simpl.
  by rewrite expand_app, IH.
Qed.

Lemma expand_units (items : list WorkItem) :
  flat_map (expand g) ((fun w => [w]) <$> items) = expand g items.
Proof.
  induction items as [| w items IH]; [done |].
  rewrite fmap_cons. simpl. rewrite IH.
  unfold expand. simpl. by rewrite app_nil_r.
Qed.

Lemma expand_work_items (q : list nat) :
  expand g (work_items g q) = flat_map (out_adj g) q.
Proof.
  unfold expand, work_items. induction q as [| u q IH]; [done |].
  rewrite fmap_cons. simpl. by rewrite IH.
Qed.

(** Through the bins or not, a top-down level tries the out-neighbours of the
    frontier, each as often as it occurs, and no division fails. *)
Lemma top_down_work_total (q : list nat) :
  top_down_work cfg g q = Some (flat_map (out_adj g) q).
Proof.
  unfold top_down_work, make_bins.
  destruct (sml_mid cfg <? Z.of_nat (length q)); [| done].
  destruct (Z.eqb_spec (bin_sz cfg) 0) as [| Hsize].
  - by rewrite expand_units, expand_work_items.
  - destruct (assign_bins_defined (bin_sz cfg) 0 (work_items g q) Hsize) as [tagged E].
    rewrite E, expand_groups, group_bins_items, (assign_bins_items _ _ _ _ E).
    by rewrite expand_work_items.
Qed.

Lemma bottom_up_work_spec (lvl : list Z) (bits : list bool) (v : nat) :
  v ∈ bottom_up_work g lvl bits <->
  (v < vert_count g)%nat /\ lvl !! v = Some INFTY /\
  exists u, u ∈ in_adj g v /\ bit_set bits u = true.
Proof.
  unfold bottom_up_work, unvisited.
  rewrite list_elem_of_In, filter_In, in_seq, andb_true_iff, bool_decide_eq_true,
    existsb_exists.
  setoid_rewrite <- list_elem_of_In. split.
  - intros [? [? ?]]. repeat split; [lia | done | done].
  - intros [? [? ?]]. repeat split; [lia | lia | done | done].
Qed.

End Work.

(** ** Levels and distances *)

Section Distances.
Variable g : Graph.
Variable src : nat.
Variable lvl : list Z.
Hypothesis lvl_src : lvl !! src = Some 0.
Hypothesis lvl_sound :
  forall v l, lvl !! v = Some l -> l <> INFTY ->
    exists n : nat, l = Z.of_nat n /\ dist g src v n.

(** If the out-neighbours of every vertex below level [k] are visited, then
    so is everything within [k] edges of the source. *)
Lemma visited_within (k v m : nat) :
  (forall u n w, lvl !! u = Some (Z.of_nat n) -> (n < k)%nat -> w ∈ out_adj g u ->
     exists l, lvl !! w = Some l /\ l <> INFTY) ->
  walk g src v m -> (m <= k)%nat ->
  exists l, lvl !! v = Some l /\ l <> INFTY.
Proof.
  intros Hclosed Hwalk. induction Hwalk as [| u v m Hwalk IH Hedge]; intros Hm.
  - exists 0. split; [done | by rewrite INFTY_value].
  - destruct IH as (l & Hl & Hvis); [lia |].
    destruct (lvl_sound u l Hl Hvis) as (n & -> & [_ Hmin]).
    specialize (Hmin m Hwalk).
    apply (Hclosed u n v); [done | lia | done].
Qed.

(** If the out-neighbours of every visited vertex are visited, then every
    vertex the source reaches holds its distance. *)
Lemma closed_levels (v m : nat) :
  (forall u l w, lvl !! u = Some l -> l <> INFTY -> w ∈ out_adj g u ->
     exists l', lvl !! w = Some l' /\ l' <> INFTY) ->
  walk g src v m ->
  exists d : nat, dist g src v d /\ lvl !! v = Some (Z.of_nat d).
Proof.
  intros Hclosed Hwalk.
  assert (Hvis : exists l, lvl !! v = Some l /\ l <> INFTY).
  { induction Hwalk as [| u v m Hwalk IH Hedge].
    - exists 0. split; [done | by rewrite INFTY_value].
    - destruct IH as (l & Hl & Hvis). by apply (Hclosed u l v). }
  destruct Hvis as (l & Hl & Hvis).
  destruct (lvl_sound v l Hl Hvis) as (d & -> & Hd). by exists d.
Qed.

End Distances.


(** A level array of distances holds the sentinel for what is not reached. *)
Lemma bfs_levels_unreached (g : Graph) (src : nat) (lvl : list Z) (v : nat) :
  bfs_levels g src lvl -> (v < vert_count g)%nat ->
  (forall m, ~ walk g src v m) -> lvl !! v = Some INFTY.
Proof.
  intros (Hlen & _ & Hsound) Hv Hno.
  destruct (lookup_lt_is_Some_2 lvl v) as [l Hl]; [lia |].
  destruct (decide (l = INFTY)) as [-> | Hvis]; [done |].
  destruct (Hsound v l Hl Hvis) as (n & _ & [Hwalk _]). by destruct (Hno n).
Qed.

(** There is one level array of distances. *)
Lemma bfs_levels_unique (g : Graph) (src : nat) (lvl1 lvl2 : list Z) :
  bfs_levels g src lvl1 -> bfs_levels g src lvl2 -> lvl1 = lvl2.
Proof.
  intros (Hlen1 & Hreach1 & Hsound1) (Hlen2 & Hreach2 & Hsound2).
  assert (Hside : forall (a b : list Z) (v : nat) (l : Z),
            (forall v m, walk g src v m ->
               exists d : nat, dist g src v d /\ b !! v = Some (Z.of_nat d)) ->
            (forall v l, a !! v = Some l -> l <> INFTY ->
               exists n : nat, l = Z.of_nat n /\ dist g src v n) ->
            a !! v = Some l -> l <> INFTY -> b !! v = Some l).
  { intros a b v l Hreach Hsound Hl Hvis.
    destruct (Hsound v l Hl Hvis) as (n & -> & Hn).
    destruct (Hreach v n (proj1 Hn)) as (d & Hd & ->).
    by rewrite (dist_unique g src v n d Hn Hd). }
  apply list_eq. intros v.
  destruct (lvl1 !! v) as [l1 |] eqn:H1; destruct (lvl2 !! v) as [l2 |] eqn:H2.
  - destruct (decide (l1 = INFTY)) as [-> | Hvis1].
    + destruct (decide (l2 = INFTY)) as [-> | Hvis2]; [done |].
      rewrite (Hside lvl2 lvl1 v l2 Hreach1 Hsound2 H2 Hvis2) in H1. done.
    + rewrite (Hside lvl1 lvl2 v l1 Hreach2 Hsound1 H1 Hvis1) in H2. done.
  - apply lookup_lt_Some in H1. apply lookup_ge_None in H2. lia.
  - apply lookup_ge_None in H1. apply lookup_lt_Some in H2. lia.
  - done.
Qed.

(** ** One level *)

Lemma to_int_small (z : Z) : int_min <= z <= int_max -> to_int z = z.
Proof.
  unfold int_min, int_max, to_int. intros H.
  rewrite Z.mod_small; lia.
Qed.

Lemma INFTY_negative (n : nat) : Z.of_nat n <> INFTY.
Proof. rewrite INFTY_value. lia. Qed.

Lemma count_unvisited_replicate (V : nat) : count_unvisited (replicate V INFTY) = V.
Proof.
  unfold count_unvisited. induction V as [| V IH]; [done |].
  change (replicate (S V) INFTY) with (INFTY :: replicate V INFTY).
  change (List.filter (fun l => l =? INFTY) (INFTY :: replicate V INFTY))
    with (if INFTY =? INFTY
          then INFTY :: List.filter (fun l => l =? INFTY) (replicate V INFTY)
          else List.filter (fun l => l =? INFTY) (replicate V INFTY)).
  rewrite Z.eqb_refl. simpl. by rewrite IH.
Qed.

Lemma claims_level_spec (g : Graph) (x : Z) (F ws : list nat) (lvl : list Z) :
  x <> INFTY ->
  (forall v, lvl !! v = Some INFTY -> v ∈ ws <-> exists u, u ∈ F /\ v ∈ out_adj g u) ->
  level_spec g x F lvl (claims x ws (lvl, [])).1 (claims x ws (lvl, [])).2.
Proof.
  intros Hx Hws. unfold level_spec. split; [apply claims_length |].
  split; [intros v; by apply claims_level_in |].
  split; [intros v; by apply claims_level_out |].
  split.
  - intros v. rewrite claims_next. simpl. split.
    + intros [?%elem_of_nil | [Hin Hun]]; [done |]. split; [done |]. by apply Hws.
    + intros [Hun Hpar]. right. split; [| done]. by apply Hws.
  - pose proof (claims_count x Hx ws (lvl, [])) as H. simpl in H. lia.
Qed.

Section Level.
Variable cfg : Config.
Variable sched : list nat -> list nat.
Variable g : Graph.
Variable src : nat.
Hypothesis g_wf : graph_wf g = true.
Hypothesis sched_fair : forall l : list nat, Permutation (sched l) l.

Lemma sched_elem (l : list nat) (v : nat) : v ∈ sched l <-> v ∈ l.
Proof. by rewrite (sched_fair l). Qed.

Lemma top_down_step_spec (cur : Z) (lvl : list Z) (q : list nat) :
  to_int (cur + 1) <> INFTY ->
  exists lvl' next,
    top_down_step cfg sched g cur lvl q = Some (lvl', next) /\
    level_spec g (to_int (cur + 1)) q lvl lvl' next.
Proof.
  intros Hx. unfold top_down_step. rewrite top_down_work_total.
  pose proof (claims_level_spec g (to_int (cur + 1)) q
                (sched (flat_map (out_adj g) q)) lvl Hx) as Hspec.
  destruct (claims _ _ _) as [lvl' next]. exists lvl', next. split; [done |].
  apply Hspec. intros v _. rewrite sched_elem, list_elem_of_In, in_flat_map.
  by setoid_rewrite <- list_elem_of_In.
Qed.

Lemma bottom_up_step_spec (cur : Z) (lvl : list Z) (bits : list bool) (F : list nat) :
  to_int (cur + 1) <> INFTY ->
  (forall u, bit_set bits u = true <-> u ∈ F) ->
  level_spec g (to_int (cur + 1)) F lvl
    (bottom_up_step sched g cur lvl bits).1 (bottom_up_step sched g cur lvl bits).2.
Proof.
  intros Hx Hbits. unfold bottom_up_step.
  apply claims_level_spec; [done |].
  intros v Hun. rewrite sched_elem, bottom_up_work_spec. split.
  - intros (_ & _ & u & Hu & Hset). exists u. split; [by apply Hbits |].
    by apply in_out.
  - intros (u & Hu & Hv). split; [by apply (out_adj_bound g g_wf u) |].
    split; [done |]. exists u. split; [by apply out_in | by apply Hbits].
Qed.

Lemma inv_create : (src < vert_count g)%nat -> Inv g src 0 (create g src).
Proof.
  intros Hsrc. unfold create. split; cbn [level frontier depth].
  - done.
  - by rewrite length_insert, length_replicate.
  - apply list_lookup_insert_eq. by rewrite length_replicate.
  - intros v l Hl Hvis. destruct (decide (src = v)) as [<- | Hne].
    + rewrite list_lookup_insert_eq in Hl by (by rewrite length_replicate).
      injection Hl as <-. exists 0%nat. split; [done |]. split; [done |].
      split; [constructor | lia].
    + rewrite list_lookup_insert_ne in Hl by done.
      apply lookup_replicate in Hl as [-> _]. done.
  - intros v. cbn [members]. rewrite list_elem_of_singleton. split.
    + intros ->. apply list_lookup_insert_eq. by rewrite length_replicate.
    + intros Hl. destruct (decide (src = v)) as [<- | Hne]; [done |].
      rewrite list_lookup_insert_ne in Hl by done.
      apply lookup_replicate in Hl as [Hl _]. by rewrite INFTY_value in Hl.
  - intros u n w _ Hn. lia.
  - assert (Hun : replicate (vert_count g) INFTY !! src = Some INFTY).
    { by apply lookup_replicate. }
    pose proof (count_unvisited_insert _ src 0 Hun (INFTY_negative 0)) as Hc.
    rewrite count_unvisited_replicate in Hc.
    change (is_empty (Queue [src])) with false. cbv iota. lia.
Qed.

Lemma inv_sound' (k : nat) (st : State) :
  Inv g src k st ->
  forall v l, level st !! v = Some l -> l <> INFTY ->
    exists n : nat, l = Z.of_nat n /\ dist g src v n.
Proof.
  intros Hinv v l Hl Hvis.
  destruct (inv_sound Hinv v l Hl Hvis) as (n & ? & _ & ?). by exists n.
Qed.

(** A level that meets [level_spec] takes the invariant from [k] to [k + 1]. *)
Lemma inv_level (k : nat) (st : State) (lvl' : list Z) (next : list nat) (s : Strategy) :
  Inv g src k st ->
  is_empty (frontier st) = false ->
  level_spec g (Z.of_nat (S k)) (members (frontier st)) (level st) lvl' next ->
  Inv g src (S k)
    (mkState lvl' (representationFor cfg (vert_count g) next) (Z.of_nat (S k)) s).
Proof.
  intros Hinv Hne (Hlen & Hin & Hout & Hnext & Hcount).
  assert (Hbound : forall w, w ∈ next -> (w < vert_count g)%nat).
  { intros w [Hun _]%Hnext. apply lookup_lt_Some in Hun.
    by rewrite (inv_length Hinv) in Hun. }
  assert (Hfront : forall u, u ∈ members (frontier st) -> dist g src u k).
  { intros u Hu%(inv_frontier Hinv).
    destruct (inv_sound Hinv u _ Hu (INFTY_negative k)) as (n & Hn & _ & Hd).
    by replace k with n by lia. }
  split; cbn [level frontier depth].
  - done.
  - by rewrite Hlen, (inv_length Hinv).
  - rewrite Hout; [apply (inv_src Hinv) |].
    intros [Hun _]%Hnext. rewrite (inv_src Hinv) in Hun.
    injection Hun as Hun. by rewrite INFTY_value in Hun.
  - intros v l Hl Hvis. destruct (decide (v ∈ next)) as [Hv | Hv].
    + rewrite (Hin v Hv) in Hl. injection Hl as <-.
      exists (S k). split; [done |]. split; [done |].
      apply Hnext in Hv as (Hun & u & Hu & Hedge). split.
      * apply (walk_step _ _ u); [apply (Hfront u Hu) | done].
      * intros m Hwalk. destruct (decide (m <= k)%nat) as [Hm | Hm]; [| lia].
        destruct (visited_within g src (level st) (inv_src Hinv)
                    (inv_sound' k st Hinv) k v m (inv_closed Hinv) Hwalk Hm)
          as (l & Hl & Hl').
        congruence.
    + rewrite (Hout v Hv) in Hl.
      destruct (inv_sound Hinv v l Hl Hvis) as (n & -> & Hn & Hd).
      exists n. split; [done |]. split; [lia | done].
  - intros v. rewrite (members_representationFor cfg _ _ _ Hbound). split.
    + apply Hin.
    + intros Hl. destruct (decide (v ∈ next)) as [Hv | Hv]; [done |].
      rewrite (Hout v Hv) in Hl.
      destruct (inv_sound Hinv v _ Hl (INFTY_negative (S k))) as (n & Hn & ? & _).
      lia.
  - intros u n w Hu Hn Hedge.
    assert (Hu' : u ∉ next).
    { intros Hu'. rewrite (Hin u Hu') in Hu. injection Hu as Hu. lia. }
    rewrite (Hout u Hu') in Hu.
    destruct (decide (w ∈ next)) as [Hw | Hw].
    { exists (Z.of_nat (S k)). split; [by apply Hin | apply INFTY_negative]. }
    rewrite (Hout w Hw).
    assert (Hsome : is_Some (level st !! w)).
    { apply lookup_lt_is_Some. rewrite (inv_length Hinv).
      by apply (out_adj_bound g g_wf u). }
    destruct Hsome as [l Hl]. exists l. split; [done |]. intros ->.
    destruct (decide (n < k)%nat) as [Hlt | Hge].
    + destruct (inv_closed Hinv u n w Hu Hlt Hedge) as (l & Hl' & Hvis).
      congruence.
    + replace n with k in Hu by lia.
      apply Hw, Hnext. split; [done |]. exists u.
      split; [by apply (inv_frontier Hinv) | done].
  - pose proof (inv_measure Hinv) as Hm. rewrite Hne in Hm.
    destruct next as [| w next].
    + assert (is_empty (representationFor cfg (vert_count g) []) = true) as ->.
      { apply is_empty_members.
        destruct (members (representationFor cfg (vert_count g) [])) as [| v vs] eqn:E;
          [done |].
        assert (Hv : v ∈ members (representationFor cfg (vert_count g) [])).
        { rewrite E. by left. }
        apply members_representationFor in Hv; [by apply elem_of_nil in Hv |].
        by intros ? ?%elem_of_nil. }
      simpl in Hcount. lia.
    + simpl in Hcount.
      destruct (is_empty (representationFor cfg (vert_count g) (w :: next))); lia.
Qed.

(** The level a step writes: no overflow while the frontier is not empty. *)
Lemma next_level_value (k : nat) (st : State) :
  Inv g src k st -> is_empty (frontier st) = false ->
  to_int (depth st + 1) = Z.of_nat (S k).
Proof.
  intros Hinv Hne.
  pose proof (inv_measure Hinv) as Hm. rewrite Hne in Hm.
  pose proof (wf_vert_count g g_wf) as HV.
  rewrite (inv_depth Hinv). rewrite to_int_small; unfold int_min; lia.
Qed.

(** Every level of the engine, whichever strategy the selector chooses. *)
Lemma level_step_inv (k : nat) (st : State) :
  Inv g src k st ->
  is_empty (frontier st) = false ->
  exists st',
    level_step cfg sched g st = Some st' /\
    Inv g src (S k) st' /\
    exists next,
      level_spec g (Z.of_nat (S k)) (members (frontier st)) (level st) (level st') next /\
      (forall v, v ∈ members (frontier st') <-> v ∈ next).
Proof.
  intros Hinv Hne.
  pose proof (inv_measure Hinv) as Hm. rewrite Hne in Hm.
  pose proof (wf_vert_count g g_wf) as HV.
  pose proof (next_level_value k st Hinv Hne) as Hx.
  assert (Hbound : forall w, w ∈ members (frontier st) -> (w < vert_count g)%nat).
  { intros w Hw%(inv_frontier Hinv). apply lookup_lt_Some in Hw.
    by rewrite (inv_length Hinv) in Hw. }
  assert (Hnext : forall lvl' next,
             level_spec g (Z.of_nat (S k)) (members (frontier st)) (level st) lvl' next ->
             forall v, v ∈ members (representationFor cfg (vert_count g) next) <-> v ∈ next).
  { intros lvl' next (_ & _ & _ & Hn & _) v. apply members_representationFor.
    intros w [Hun _]%Hn. apply lookup_lt_Some in Hun.
    by rewrite (inv_length Hinv) in Hun. }
  unfold level_step.
  destruct (select cfg (strategy st) _ _) eqn:Hsel.
  - destruct (top_down_step_spec (depth st) (level st) (as_queue (frontier st)))
      as (lvl' & next & -> & Hspec).
    { rewrite Hx. apply INFTY_negative. }
    rewrite Hx in *. eexists. split; [reflexivity |].
    split; [by apply (inv_level k st) |]. exists next. split; [done | by apply (Hnext lvl')].
  - pose proof (bottom_up_step_spec (depth st) (level st)
                  (as_bitmap (vert_count g) (frontier st)) (members (frontier st))) as Hspec.
    rewrite Hx in Hspec. specialize (Hspec (INFTY_negative _)).
    specialize (Hspec (fun u => as_bitmap_members _ _ u Hbound)).
    destruct (bottom_up_step sched g (depth st) (level st) _) as [lvl' next].
    simpl in Hspec. rewrite Hx. eexists. split; [reflexivity |].
    split; [by apply (inv_level k st) |]. exists next. split; [done | by apply (Hnext lvl')].
Qed.

End Level.

(** ** The traversal *)

Section Traversal.
Variable cfg : Config.
Variable sched : list nat -> list nat.
Variable g : Graph.
Variable src : nat.
Hypothesis g_wf : graph_wf g = true.
Hypothesis sched_fair : forall l : list nat, Permutation (sched l) l.

(** The loop ends within [vert_count g] levels, on an empty frontier. *)
Lemma traverse_inv (fuel k : nat) (st : State) :
  Inv g src k st -> (vert_count g <= fuel + k)%nat ->
  exists (k' : nat) (st' : State),
    traverse cfg sched g fuel st = Some st' /\
    Inv g src k' st' /\ is_empty (frontier st') = true.
Proof.
  revert k st. induction fuel as [| fuel IH]; intros k st Hinv Hfuel.
  - destruct (is_empty (frontier st)) eqn:He.
    + exists k, st. simpl. by rewrite He.
    + pose proof (inv_measure Hinv) as Hm. rewrite He in Hm. lia.
  - simpl. destruct (is_empty (frontier st)) eqn:He.
    + by exists k, st.
    + destruct (level_step_inv cfg sched g src g_wf sched_fair k st Hinv He)
        as (st' & -> & Hinv' & _).
      apply (IH (S k)); [done | lia].
Qed.

Lemma final_levels (k : nat) (st : State) :
  Inv g src k st -> is_empty (frontier st) = true -> bfs_levels g src (level st).
Proof.
  intros Hinv He. split; [apply (inv_length Hinv) |]. split.
  - intros v m. apply closed_levels.
    + apply (inv_src Hinv).
    + apply (inv_sound' g src k st Hinv).
    + intros u l w Hl Hvis Hedge.
      destruct (inv_sound Hinv u l Hl Hvis) as (n & -> & Hn & _).
      apply (inv_closed Hinv u n w); [done | | done].
      destruct (decide (n = k)) as [-> | Hne]; [| lia].
      apply (inv_frontier Hinv) in Hl.
      apply is_empty_members in He. rewrite He in Hl. by apply elem_of_nil in Hl.
  - apply (inv_sound' g src k st Hinv).
Qed.

End Traversal.

(** ** The reference serial BFS *)

Lemma claims_acc (x : Z) (ws : list nat) (lvl : list Z) (acc : list nat) :
  claims x ws (lvl, acc)
  = ((claims x ws (lvl, [])).1, acc ++ (claims x ws (lvl, [])).2).
Proof.
  revert lvl acc. induction ws as [| w ws IH]; intros lvl acc.
  - simpl. by rewrite app_nil_r.
  - rewrite !claims_cons.
    destruct (claim_cases x (lvl, acc) w) as [[Hw ->] | [Hw ->]]; simpl in Hw.
    + rewrite (claim_unvisited x (lvl, []) w Hw). simpl.
      rewrite (IH _ (acc ++ [w])), (IH _ [w]). simpl. by rewrite <- app_assoc.
    + rewrite (claim_visited x (lvl, []) w Hw). apply IH.
Qed.

Section Serial.
Variable g : Graph.
Variable src : nat.
Hypothesis g_wf : graph_wf g = true.

Lemma s_sound' (k : nat) (lvl : list Z) (A B : list nat) :
  SInv g src k lvl A B ->
  forall v l, lvl !! v = Some l -> l <> INFTY ->
    exists n : nat, l = Z.of_nat n /\ dist g src v n.
Proof.
  intros Hinv v l Hl Hvis.
  destruct (s_sound Hinv v l Hl Hvis) as (n & ? & _ & ?). by exists n.
Qed.

Lemma sinv_init :
  (src < vert_count g)%nat ->
  SInv g src 0 (<[src := 0]> (replicate (vert_count g) INFTY)) [src] [].
Proof.
  intros Hsrc.
  assert (Hlookup : forall v l,
            <[src := 0]> (replicate (vert_count g) INFTY) !! v = Some l -> l <> INFTY ->
            v = src /\ l = 0).
  { intros v l Hl Hvis. destruct (decide (src = v)) as [<- | Hne].
    - rewrite list_lookup_insert_eq in Hl by (by rewrite length_replicate).
      by injection Hl as <-.
    - rewrite list_lookup_insert_ne in Hl by done.
      apply lookup_replicate in Hl as [-> _]. done. }
  split.
  - by rewrite length_insert, length_replicate.
  - apply list_lookup_insert_eq. by rewrite length_replicate.
  - intros v l Hl Hvis. destruct (Hlookup v l Hl Hvis) as [-> ->].
    exists 0%nat. split; [done |]. split; [lia |]. split; [constructor | lia].
  - intros u ->%list_elem_of_singleton.
    apply list_lookup_insert_eq. by rewrite length_replicate.
  - intros w. split; [by intros ?%elem_of_nil |].
    intros Hl. destruct (Hlookup w _ Hl (INFTY_negative 1)) as [_ ?]. done.
  - intros u n w Hl [Hn | [-> Hu]] Hedge; [lia |].
    destruct (Hlookup u _ Hl (INFTY_negative 0)) as [-> _].
    destruct Hu. by apply list_elem_of_singleton.
  - intros _.
    assert (Hun : replicate (vert_count g) INFTY !! src = Some INFTY).
    { by apply lookup_replicate. }
    pose proof (count_unvisited_insert _ src 0 Hun (INFTY_negative 0)) as Hc.
    rewrite count_unvisited_replicate in Hc. simpl. lia.
Qed.

(** When level [k] is worked off, what was found becomes level [k + 1]. *)
Lemma sinv_relabel (k : nat) (lvl : list Z) (b : nat) (B : list nat) :
  SInv g src k lvl [] (b :: B) -> SInv g src (S k) lvl (b :: B) [].
Proof.
  intros Hinv. split.
  - apply (s_length Hinv).
  - apply (s_src Hinv).
  - intros v l Hl Hvis.
    destruct (s_sound Hinv v l Hl Hvis) as (n & ? & ? & ?).
    exists n. split; [done |]. split; [lia | done].
  - intros u Hu. by apply (s_next Hinv).
  - intros w. split; [by intros ?%elem_of_nil |]. intros Hl.
    destruct (s_sound Hinv w _ Hl (INFTY_negative _)) as (n & ? & ? & _).
    lia.
  - intros u n w Hl Hn Hedge.
    apply (s_closed Hinv u n w); [done | | done].
    destruct (decide (n < k)%nat) as [| Hge]; [by left |].
    destruct (decide (n = k)) as [-> | Hne].
    + right. split; [done |]. by intros ?%elem_of_nil.
    + destruct Hn as [Hn | [-> Hu]]; [lia |].
      destruct Hu. by apply (s_next Hinv).
  - intros _. pose proof (s_depth Hinv) as Hd.
    simpl in *. specialize (Hd ltac:(done)). lia.
Qed.

(** Expanding the head of the queue. *)
Lemma sinv_expand (k : nat) (lvl : list Z) (u : nat) (A B : list nat) :
  SInv g src k lvl (u :: A) B ->
  exists (lvl' : list Z) (new : list nat),
    claims (to_int (Z.of_nat k + 1)) (out_adj g u) (lvl, A ++ B) = (lvl', A ++ (B ++ new)) /\
    SInv g src k lvl' A (B ++ new) /\
    (count_unvisited lvl' + length new = count_unvisited lvl)%nat.
Proof.
  intros Hinv.
  pose proof (s_depth Hinv ltac:(done)) as Hd.
  pose proof (wf_vert_count g g_wf) as HV.
  assert (Hx : to_int (Z.of_nat k + 1) = Z.of_nat (S k)).
  { rewrite to_int_small; unfold int_min; lia. }
  rewrite Hx, claims_acc.
  pose proof (claims_level_spec g (Z.of_nat (S k)) [u] (out_adj g u) lvl
                (INFTY_negative _)) as Hspec.
  destruct (claims (Z.of_nat (S k)) (out_adj g u) (lvl, [])) as [lvl' new].
  simpl in *.
  destruct Hspec as (Hlen & Hin & Hout & Hnext & Hcount).
  { intros v _. split.
    - intros Hv. exists u. split; [by apply list_elem_of_singleton | done].
    - by intros (u' & ->%list_elem_of_singleton & Hv). }
  exists lvl', new. split; [by rewrite app_assoc |]. split; [| done].
  assert (Hu : lvl !! u = Some (Z.of_nat k)).
  { apply (s_now Hinv). by left. }
  assert (Hold : forall v l, lvl !! v = Some l -> l <> INFTY -> lvl' !! v = Some l).
  { intros v l Hl Hvis. rewrite Hout; [done |].
    intros [Hun _]%Hnext. congruence. }
  split.
  - by rewrite Hlen, (s_length Hinv).
  - apply Hold; [apply (s_src Hinv) | by rewrite INFTY_value].
  - intros v l Hl Hvis. destruct (decide (v ∈ new)) as [Hv | Hv].
    + rewrite (Hin v Hv) in Hl. injection Hl as <-.
      exists (S k). split; [done |]. split; [done |].
      apply Hnext in Hv as (Hun & u' & ->%list_elem_of_singleton & Hedge). split.
      * apply (walk_step _ _ u); [| done].
        destruct (s_sound Hinv u _ Hu (INFTY_negative k))
          as (n & Hn & _ & [Hw _]).
        by replace k with n by lia.
      * intros m Hwalk. destruct (decide (m <= k)%nat) as [Hm | Hm]; [| lia].
        destruct (visited_within g src lvl (s_src Hinv)
                    (s_sound' _ _ _ _ Hinv) k v m) as (l & Hl & Hl'); [| done | done |].
        { intros u' n w Hl Hn. apply (s_closed Hinv u' n w Hl). by left. }
        congruence.
    + rewrite (Hout v Hv) in Hl. apply (s_sound Hinv v l Hl Hvis).
  - intros u' Hu'. apply Hold; [| apply INFTY_negative].
    apply (s_now Hinv). by right.
  - intros w. rewrite elem_of_app. split.
    + intros [Hw | Hw]; [| by apply Hin].
      apply Hold; [by apply (s_next Hinv) | apply INFTY_negative].
    + intros Hl. destruct (decide (w ∈ new)) as [Hw | Hw]; [by right |].
      left. rewrite (Hout w Hw) in Hl. by apply (s_next Hinv).
  - intros u' n w Hl Hn Hedge.
    assert (Hu' : u' ∉ new).
    { intros Hu'. rewrite (Hin u' Hu') in Hl. injection Hl as Hl. lia. }
    rewrite (Hout u' Hu') in Hl.
    assert (Hsome : is_Some (lvl !! w)).
    { apply lookup_lt_is_Some. rewrite (s_length Hinv).
      by apply (out_adj_bound g g_wf u'). }
    destruct Hsome as [l Hw].
    destruct (decide (l = INFTY)) as [-> | Hvis]; [| exists l; split; [by apply Hold | done]].
    destruct (decide (u' = u)) as [-> | Hne].
    * exists (Z.of_nat (S k)). split; [| apply INFTY_negative].
      apply Hin, Hnext. split; [done |]. exists u.
      split; [by apply list_elem_of_singleton | done].
    * destruct (s_closed Hinv u' n w Hl) as (l & Hl' & Hvis'); [| done |].
      { destruct Hn as [Hn | [-> Hn]]; [by left | right].
        split; [done |]. rewrite not_elem_of_cons. by split. }
      congruence.
  - intros _. rewrite length_app. lia.
Qed.

Lemma serial_loop_head (fuel : nat) :
  (forall k lvl A B, SInv g src k lvl A B ->
     (count_unvisited lvl + length (A ++ B) <= fuel)%nat ->
     exists lvl' k', serial_loop fuel g lvl (A ++ B) = Some lvl' /\
                     SInv g src k' lvl' [] []) ->
  forall k lvl u A B, SInv g src k lvl (u :: A) B ->
    (count_unvisited lvl + length ((u :: A) ++ B) <= S fuel)%nat ->
    exists lvl' k', serial_loop (S fuel) g lvl ((u :: A) ++ B) = Some lvl' /\
                    SInv g src k' lvl' [] [].
Proof.
  intros IH k lvl u A B Hinv Hfuel.
  destruct (sinv_expand k lvl u A B Hinv) as (lvl' & new & Hclaims & Hinv' & Hcount).
  simpl. rewrite (s_now Hinv u) by (by left).
  rewrite Hclaims. apply (IH k); [done |].
  simpl in Hfuel. rewrite !length_app in *. lia.
Qed.

(** The reference traversal ends, with fuel for one step for each vertex. *)
Lemma serial_loop_inv (fuel k : nat) (lvl : list Z) (A B : list nat) :
  SInv g src k lvl A B ->
  (count_unvisited lvl + length (A ++ B) <= fuel)%nat ->
  exists (lvl' : list Z) (k' : nat),
    serial_loop fuel g lvl (A ++ B) = Some lvl' /\ SInv g src k' lvl' [] [].
Proof.
  revert k lvl A B.
  induction fuel as [| fuel IH]; intros k lvl A B Hinv Hfuel.
  - destruct A as [| u A]; destruct B as [| b B]; simpl in Hfuel; try lia.
    exists lvl, k. by split.
  - destruct A as [| u A].
    + destruct B as [| b B]; [exists lvl, k; by split |].
      apply sinv_relabel in Hinv.
      rewrite <- (app_nil_r ([] ++ b :: B)). simpl app at 2.
      apply (serial_loop_head fuel IH (S k)); [done |].
      rewrite app_nil_r. exact Hfuel.
    + by apply (serial_loop_head fuel IH k).
Qed.

Lemma serial_final (k : nat) (lvl : list Z) :
  SInv g src k lvl [] [] -> bfs_levels g src lvl.
Proof.
  intros Hinv. split; [apply (s_length Hinv) |]. split.
  - intros v m. apply closed_levels.
    + apply (s_src Hinv).
    + apply (s_sound' _ _ _ _ Hinv).
    + intros u l w Hl Hvis Hedge.
      destruct (s_sound Hinv u l Hl Hvis) as (n & -> & Hn & _).
      apply (s_closed Hinv u n w); [done | | done].
      destruct (decide (n < k)%nat) as [| Hge]; [by left |].
      destruct (decide (n = k)) as [-> | Hne].
      * right. split; [done |]. by intros ?%elem_of_nil.
      * replace n with (S k) in Hl by lia.
        apply (s_next Hinv) in Hl. by apply elem_of_nil in Hl.
  - apply (s_sound' _ _ _ _ Hinv).
Qed.

Lemma serial_bfs_levels :
  (src < vert_count g)%nat ->
  exists ref : list Z, serial_bfs g src = Some ref /\ bfs_levels g src ref.
Proof.
  intros Hsrc. pose proof (sinv_init Hsrc) as Hinv.
  destruct (serial_loop_inv (vert_count g) 0 _ [src] [] Hinv) as (ref & k & Hrun & Hfin).
  { pose proof (s_depth Hinv ltac:(done)) as Hd. simpl in *. lia. }
  exists ref. split; [exact Hrun |]. by apply (serial_final k).
Qed.

End Serial.

(** ** The engine and the reference agree with the shortest paths *)

Lemma adaptive_bfs_levels
    (cfg : Config) (sched : list nat -> list nat) (g : Graph) (src : nat) :
  graph_wf g = true ->
  (forall l : list nat, Permutation (sched l) l) ->
  (src < vert_count g)%nat ->
  exists st : State,
    adaptive_bfs cfg sched g src = Some st /\
    is_empty (frontier st) = true /\
    bfs_levels g src (level st).
Proof.
  intros g_wf sched_fair src_valid.
  destruct (traverse_inv cfg sched g src g_wf sched_fair (vert_count g) 0 (create g src))
    as (k & st & Hrun & Hinv & He).
  { by apply inv_create. }
  { lia. }
  exists st. split; [exact Hrun |]. split; [exact He |].
  by apply (final_levels g src k).
Qed.

(** C1: for every well-formed graph in CSR form with its transpose, every
    source vertex and every order in which the claims of a level arrive, the
    adaptive traversal ends, and to every vertex that a path from the source
    reaches its level array gives the number of edges of a shortest such path;
    the reference serial BFS ends with the same level array. *)
Theorem adaptive_bfs_shortest_paths
    (cfg : Config) (sched : list nat -> list nat) (g : Graph) (src : nat) :
  graph_wf g = true ->
  (forall l : list nat, Permutation (sched l) l) ->
  (src < vert_count g)%nat ->
  exists (st : State) (ref : list Z),
    adaptive_bfs cfg sched g src = Some st /\
    serial_bfs g src = Some ref /\
    level st = ref /\
    forall v m, walk g src v m ->
      exists d : nat,
        dist g src v d /\
        level st !! v = Some (Z.of_nat d) /\
        ref !! v = Some (Z.of_nat d).
Proof.
  intros g_wf sched_fair src_valid.
  destruct (adaptive_bfs_levels cfg sched g src g_wf sched_fair src_valid)
    as (st & Hrun & _ & Hlevels).
  destruct (serial_bfs_levels g src g_wf src_valid) as (ref & Href & Hlevels').
  exists st, ref. split; [exact Hrun |]. split; [exact Href |].
  pose proof (bfs_levels_unique g src _ _ Hlevels Hlevels') as Heq.
  split; [exact Heq |].
  intros v m Hwalk. destruct Hlevels as (_ & Hreach & _).
  destruct (Hreach v m Hwalk) as (d & Hd & Hl).
  exists d. split; [exact Hd |]. split; [exact Hl |]. by rewrite <- Heq.
Qed.

(** The claims arrive in reverse order, on [diamond], from the vertex 0. *)
Lemma adaptive_bfs_shortest_paths_witness :
  exists (st : State) (ref : list Z),
    adaptive_bfs shipped (@rev nat) diamond 0 = Some st /\
    serial_bfs diamond 0 = Some ref /\
    level st = ref /\
    forall v m, walk diamond 0 v m ->
      exists d : nat,
        dist diamond 0 v d /\
        level st !! v = Some (Z.of_nat d) /\
        ref !! v = Some (Z.of_nat d).
Proof.
  apply (adaptive_bfs_shortest_paths shipped (@rev nat) diamond 0).
  - reflexivity.
  - intros l. symmetry. apply Permutation_rev.
  - simpl. lia.
Defined.

(** ** The sentinel along the traversal *)

Section Sentinel.
Variable cfg : Config.
Variable sched : list nat -> list nat.
Variable g : Graph.
Variable src : nat.
Hypothesis g_wf : graph_wf g = true.
Hypothesis sched_fair : forall l : list nat, Permutation (sched l) l.
Hypothesis src_valid : (src < vert_count g)%nat.

Lemma run_levels_snoc (n : nat) (st : State) :
  run_levels cfg sched g (S n) st
  = match run_levels cfg sched g n st with
    | Some st' =>
        if is_empty (frontier st') then Some st' else level_step cfg sched g st'
    | None => None
    end.
Proof.
  revert st. induction n as [| n IH]; intros st.
  - simpl. destruct (is_empty (frontier st)); [done |].
    by destruct (level_step cfg sched g st).
  - change (run_levels cfg sched g (S (S n)) st)
      with (if is_empty (frontier st) then Some st
            else match level_step cfg sched g st with
                 | Some st' => run_levels cfg sched g (S n) st'
                 | None => None
                 end).
    change (run_levels cfg sched g (S n) st)
      with (if is_empty (frontier st) then Some st
            else match level_step cfg sched g st with
                 | Some st' => run_levels cfg sched g n st'
                 | None => None
                 end).
    destruct (is_empty (frontier st)) eqn:He; [by rewrite He |].
    destruct (level_step cfg sched g st) as [st1 |]; [apply IH | done].
Qed.

(** What the loop returns is the state after [fuel] levels. *)
Lemma traverse_run_levels (fuel : nat) (st st' : State) :
  traverse cfg sched g fuel st = Some st' ->
  run_levels cfg sched g fuel st = Some st' /\ is_empty (frontier st') = true.
Proof.
  revert st. induction fuel as [| fuel IH]; intros st; simpl.
  - destruct (is_empty (frontier st)) eqn:He; [| done]. by intros [= <-].
  - destruct (is_empty (frontier st)) eqn:He; [by intros [= <-] |].
    destruct (level_step cfg sched g st) as [st1 |]; [apply IH | done].
Qed.

(** After [n] levels the vertices with a level are the vertices that were in
    a frontier. *)
Lemma run_levels_discovered (n : nat) (st : State) :
  run_levels cfg sched g n (create g src) = Some st ->
  exists k : nat,
    Inv g src k st /\
    forall v, (exists l, level st !! v = Some l /\ l <> INFTY)
              <-> discovered cfg sched g src n v.
Proof.
  revert st. induction n as [| n IH]; intros st Hrun.
  - injection Hrun as <-. exists 0%nat.
    pose proof (inv_create g src src_valid) as Hinv. split; [exact Hinv |].
    intros v. split.
    + intros (l & Hl & Hvis). exists 0%nat, (create g src).
      split; [done |]. split; [done |].
      apply (inv_frontier Hinv).
      destruct (inv_sound Hinv v l Hl Hvis) as (m & -> & Hm & _).
      by replace m with 0%nat in Hl by lia.
    + intros (m & st' & Hm & Hrun & Hv).
      replace m with 0%nat in Hrun by lia. injection Hrun as <-.
      apply (inv_frontier Hinv) in Hv.
      eexists. split; [exact Hv | apply INFTY_negative].
  - rewrite run_levels_snoc in Hrun.
    destruct (run_levels cfg sched g n (create g src)) as [st1 |] eqn:Hrun1; [| done].
    destruct (IH st1 eq_refl) as (k & Hinv & Hdisc).
    assert (Hmono : forall v, discovered cfg sched g src n v
                              -> discovered cfg sched g src (S n) v).
    { intros v (m & st' & Hm & Hrun' & Hv). exists m, st'. split; [lia | done]. }
    destruct (is_empty (frontier st1)) eqn:He.
    + injection Hrun as <-. exists k. split; [exact Hinv |].
      intros v. rewrite Hdisc. split; [apply Hmono |].
      intros (m & st' & Hm & Hrun' & Hv).
      destruct (decide (m = S n)) as [-> | Hne]; [| exists m, st'; split; [lia | done]].
      rewrite run_levels_snoc, Hrun1, He in Hrun'. injection Hrun' as <-.
      apply is_empty_members in He. rewrite He in Hv. by apply elem_of_nil in Hv.
    + destruct (level_step_inv cfg sched g src g_wf sched_fair k st1 Hinv He)
        as (st2 & Hstep & Hinv2 & next & Hspec & Hfront).
      rewrite Hstep in Hrun. injection Hrun as <-.
      exists (S k). split; [exact Hinv2 |].
      destruct Hspec as (_ & Hin & Hout & Hnext & _).
      intros v. split.
      * intros (l & Hl & Hvis). destruct (decide (v ∈ next)) as [Hv | Hv].
        -- exists (S n), st2. split; [done |].
           rewrite run_levels_snoc, Hrun1, He. split; [done | by apply Hfront].
        -- apply Hmono, Hdisc. exists l. by rewrite <- (Hout v Hv).
      * intros (m & st' & Hm & Hrun' & Hv).
        destruct (decide (m = S n)) as [-> | Hne].
        -- rewrite run_levels_snoc, Hrun1, He, Hstep in Hrun'. injection Hrun' as <-.
           apply Hfront in Hv. exists (Z.of_nat (S k)).
           split; [by apply Hin | apply INFTY_negative].
        -- assert (Hd : discovered cfg sched g src n v).
           { exists m, st'. split; [lia | done]. }
           apply Hdisc in Hd as (l & Hl & Hvis). exists l. split; [| done].
           destruct (decide (v ∈ next)) as [Hv' | Hv'].
           ++ apply Hnext in Hv' as [Hun _]. congruence.
           ++ by rewrite (Hout v Hv').
Qed.

End Sentinel.

(** C9: [INFTY] is the [int] -1, below every level.  After any number of
    levels of the traversal, and so in its result, a vertex holds [INFTY]
    exactly when no frontier has held the vertex so far, and a vertex that a
    frontier has held holds a level that is not negative.  Inside a level,
    after any of its claims, a vertex holds [INFTY] exactly when it held it
    before the level and no claim of the level has won it. *)
Theorem INFTY_marks_the_undiscovered
    (cfg : Config) (sched : list nat -> list nat) (g : Graph) (src : nat)
    (n : nat) (st : State) (v : nat) :
  graph_wf g = true ->
  (forall l : list nat, Permutation (sched l) l) ->
  (src < vert_count g)%nat ->
  run_levels cfg sched g n (create g src) = Some st ->
  (v < vert_count g)%nat ->
  macro_value (preprocess header_h pp_empty) "INFTY" = Some (VInt INFTY) /\
  INFTY = -1 /\
  (level st !! v = Some INFTY <-> ~ discovered cfg sched g src n v) /\
  (discovered cfg sched g src n v ->
     exists l, level st !! v = Some l /\ 0 <= l /\ INFTY < l) /\
  (is_empty (frontier st) = false ->
     forall ws : list nat,
       let mid := claims (to_int (depth st + 1)) ws (level st, []) in
       (mid.1 !! v = Some INFTY <-> level st !! v = Some INFTY /\ v ∉ mid.2) /\
       (forall l, mid.1 !! v = Some l -> l = INFTY \/ 0 <= l)) /\
  (forall final, adaptive_bfs cfg sched g src = Some final ->
     run_levels cfg sched g (vert_count g) (create g src) = Some final).
Proof.
  intros g_wf sched_fair src_valid Hrun Hv.
  split; [reflexivity |]. split; [reflexivity |].
  destruct (run_levels_discovered cfg sched g src g_wf sched_fair src_valid n st Hrun)
    as (k & Hinv & Hdisc).
  split; [| split; [| split]].
  - rewrite <- Hdisc. split.
    + intros Hl (l & Hl' & Hvis). congruence.
    + intros Hno. destruct (lookup_lt_is_Some_2 (level st) v) as [l Hl].
      { by rewrite (inv_length Hinv). }
      destruct (decide (l = INFTY)) as [-> | Hvis]; [done |].
      destruct Hno. by exists l.
  - intros (l & Hl & Hvis)%Hdisc.
    destruct (inv_sound Hinv v l Hl Hvis) as (m & -> & _).
    eexists. split; [exact Hl |]. rewrite INFTY_value. lia.
  - intros Hne ws mid. subst mid.
    rewrite (next_level_value g src g_wf k st Hinv Hne).
    pose proof (INFTY_negative (S k)) as Hx.
    destruct (decide (v ∈ (claims (Z.of_nat (S k)) ws (level st, [])).2)) as [Hin | Hout].
    + rewrite (claims_level_in _ Hx ws (level st) v Hin). split.
      * split; [intros [= H]; by destruct Hx | tauto].
      * intros l [= <-]. right. lia.
    + rewrite (claims_level_out _ ws (level st) v Hout). split; [tauto |].
      intros l Hl. destruct (decide (l = INFTY)) as [| Hvis]; [by left | right].
      destruct (inv_sound Hinv v l Hl Hvis) as (m & -> & _). lia.
  - intros final Hfinal. by apply traverse_run_levels in Hfinal as [? _].
Qed.

(** After one level on [diamond] from the vertex 0, for the vertex 3. *)
Lemma INFTY_marks_the_undiscovered_witness :
  let st := mkState [0; 1; 1; -1; -1] (Queue [2; 1]%nat) 1 TOP_DOWN in
  macro_value (preprocess header_h pp_empty) "INFTY" = Some (VInt INFTY) /\
  INFTY = -1 /\
  (level st !! 3%nat = Some INFTY <-> ~ discovered shipped (@rev nat) diamond 0 1 3) /\
  (discovered shipped (@rev nat) diamond 0 1 3 ->
     exists l, level st !! 3%nat = Some l /\ 0 <= l /\ INFTY < l) /\
  (is_empty (frontier st) = false ->
     forall ws : list nat,
       let mid := claims (to_int (depth st + 1)) ws (level st, []) in
       (mid.1 !! 3%nat = Some INFTY <-> level st !! 3%nat = Some INFTY /\ 3%nat ∉ mid.2) /\
       (forall l, mid.1 !! 3%nat = Some l -> l = INFTY \/ 0 <= l)) /\
  (forall final, adaptive_bfs shipped (@rev nat) diamond 0 = Some final ->
     run_levels shipped (@rev nat) diamond (vert_count diamond) (create diamond 0)
     = Some final).
Proof.
  apply (INFTY_marks_the_undiscovered shipped (@rev nat) diamond 0 1).
  - reflexivity.
  - intros l. symmetry. apply Permutation_rev.
  - simpl. lia.
  - reflexivity.
  - simpl. lia.
Defined.

(** ** Startup *)







(** ** Binning *)

Lemma assign_bins_tags (size p : Z) (items : list WorkItem) (tagged : list (Z * WorkItem)) :
  assign_bins size p items = Some tagged ->
  fst <$> tagged = (fun q => Z.quot q size) <$> prefix_sums p items.
Proof.
  revert p tagged. induction items as [| [u d] items IH]; intros p tagged; simpl.
  - by intros [= <-].
  - unfold c_div. destruct (size =? 0); [done |].
    destruct (assign_bins size (to_int (p + d)) items) as [rest |] eqn:E; [| done].
    intros [= <-]. rewrite !fmap_cons. f_equal. by apply IH.
Qed.

(** C8: with BIN_SZ = 8192 every division and every remainder by BIN_SZ is
    defined; the bin of a prefix sum [p] that is not negative starts at the
    multiple of BIN_SZ below [p]; the binning of a frontier gives bins, which
    hold the work items in their order, and never the degraded form or a
    fault. *)
Theorem binning_divisions_defined (items : list WorkItem) :
  BIN_SZ = 8192 /\
  bin_sz shipped = BIN_SZ /\
  (forall a : Z,
     c_div a BIN_SZ = Some (Z.quot a BIN_SZ) /\ c_rem a BIN_SZ = Some (Z.rem a BIN_SZ)) /\
  (forall p : Z, 0 <= p ->
     Z.quot p BIN_SZ * BIN_SZ <= p < (Z.quot p BIN_SZ + 1) * BIN_SZ) /\
  (exists tagged : list (Z * WorkItem),
     assign_bins BIN_SZ 0 items = Some tagged /\
     snd <$> tagged = items /\
     fst <$> tagged = (fun p => Z.quot p BIN_SZ) <$> prefix_sums 0 items /\
     make_bins BIN_SZ items = Some (Binned (group_bins BIN_SZ tagged)) /\
     flat_map snd (group_bins BIN_SZ tagged) = items) /\
  (forall units, make_bins BIN_SZ items <> Some (Degraded units)) /\
  make_bins BIN_SZ items <> None.
Proof.
  assert (Hsize : BIN_SZ <> 0) by done.
  destruct (assign_bins_defined BIN_SZ 0 items Hsize) as [tagged Htagged].
  assert (Hbins : make_bins BIN_SZ items = Some (Binned (group_bins BIN_SZ tagged))).
  { unfold make_bins. by rewrite Htagged. }
  split; [reflexivity |]. split; [reflexivity |].
  split; [intros a; split; reflexivity |].
  split.
  { intros p Hp. unfold BIN_SZ.
    pose proof (Z.quot_rem' p 8192) as Hqr.
    pose proof (Z.rem_bound_pos p 8192 Hp ltac:(lia)) as Hr. lia. }
  split.
  { exists tagged. split; [exact Htagged |].
    split; [by apply (assign_bins_items BIN_SZ 0) |].
    split; [by apply assign_bins_tags |].
    split; [exact Hbins |].
    rewrite group_bins_items. by apply (assign_bins_items BIN_SZ 0). }
  rewrite Hbins. split; [intros units; discriminate | discriminate].
Qed.

(** ** The ranges of the types *)

Lemma to_int_range (z : Z) : int_min <= to_int z <= int_max.
Proof.
  unfold to_int, int_min, int_max.
  pose proof (Z.mod_pos_bound (z + 2 ^ 31) (2 ^ 32) ltac:(lia)). lia.
Qed.

Lemma csr_wf_edges (V : nat) (c : CSR) :
  csr_wf V c = true ->
  offsets c !! V = Some (Z.of_nat (length (neighbors c))) /\
  Z.of_nat (length (neighbors c)) <= int_max.
Proof.
  unfold csr_wf. rewrite !andb_true_iff, !bool_decide_eq_true, !forallb_forall.
  intros [[[[[[_ Hty] _] _] _] Hlast] _]. split; [exact Hlast |].
  assert (Hin : In (Z.of_nat (length (neighbors c))) (offsets c)).
  { apply list_elem_of_In. by apply (list_elem_of_lookup_2 _ V). }
  apply Hty, in_range_index_t in Hin. lia.
Qed.

(** The levels of a state of the traversal fit [feature_t]. *)
Lemma inv_levels_in_range (g : Graph) (src k : nat) (st : State) :
  graph_wf g = true -> Inv g src k st ->
  forall v l, level st !! v = Some l -> in_range feature_t l = true.
Proof.
  intros g_wf Hinv v l Hl. apply in_range_index_t.
  destruct (decide (l = INFTY)) as [-> | Hvis].
  - rewrite INFTY_value. unfold int_min, int_max. lia.
  - destruct (inv_sound Hinv v l Hl Hvis) as (n & -> & Hn & _).
    pose proof (inv_measure Hinv) as Hm.
    pose proof (wf_vert_count g g_wf) as HV. unfold int_min. lia.
Qed.

(** C10: [index_t] and [feature_t] are the 32-bit [int] and [vertex_t] is the
    32-bit [unsigned int]; a CSR whose offsets are [index_t] values and end at
    the number E of its edges has E <= 2^31 - 1, and a larger E is not an
    [index_t] value; levels, of type [feature_t], have the range of
    [index_t]. *)
Theorem index_t_bounds_the_edge_count :
  let tu := preprocess header_h pp_empty in
  typedefs tu !! "index_t"%string = Some index_t /\
  typedefs tu !! "vertex_t"%string = Some vertex_t /\
  typedefs tu !! "feature_t"%string = Some feature_t /\
  index_t = TInt /\ vertex_t = TUInt /\ feature_t = TInt /\
  type_range index_t = Some (- 2 ^ 31, 2 ^ 31 - 1) /\
  type_range vertex_t = Some (0, 2 ^ 32 - 1) /\
  type_range feature_t = type_range index_t /\
  (forall (V : nat) (c : CSR), csr_wf V c = true ->
     offsets c !! V = Some (Z.of_nat (length (neighbors c))) /\
     Z.of_nat (length (neighbors c)) <= 2 ^ 31 - 1) /\
  (forall g : Graph, graph_wf g = true -> 0 <= edge_count g <= 2 ^ 31 - 1) /\
  (forall E : Z, 2 ^ 31 - 1 < E -> in_range index_t E = false /\ to_int E <> E) /\
  (forall E : Z, 0 <= E <= 2 ^ 31 - 1 -> in_range index_t E = true /\ to_int E = E).
Proof.
  intros tu. subst tu.
  repeat match goal with |- _ /\ _ => split end; try reflexivity.
  - intros V c Hwf. apply (csr_wf_edges V c Hwf).
  - intros g Hwf. unfold edge_count. split; [lia |].
    apply (csr_wf_edges (vert_count g)), (wf_out g Hwf).
  - intros E HE. split.
    + unfold in_range. simpl. apply andb_false_iff. right. apply Z.leb_gt.
      unfold int_max. lia.
    + pose proof (to_int_range E). unfold int_max in *. lia.
  - intros E HE. split.
    + apply in_range_index_t. unfold int_min, int_max. lia.
    + apply to_int_small. unfold int_min, int_max. lia.
Qed.

(** ** The model at work *)

Example HandleError_invalid_argument :
  HandleError (fun _ => "invalid argument"%string) 1 "bfs.cu" 42
  = mkRun ["invalid argument in bfs.cu at line 42" +:+ newline] (Exited 1).
Proof. reflexivity. Qed.

Example HandleError_success :
  HandleError (fun _ => "no error"%string) cudaSuccess "bfs.cu" 42
  = mkRun [] (Returned tt).
Proof. reflexivity. Qed.

Example diamond_wf : graph_wf diamond = true.
Proof. reflexivity. Qed.

Example adaptive_bfs_diamond :
  adaptive_bfs shipped (@rev nat) diamond 0
  = Some (mkState [0; 1; 1; 2; -1] (Queue []) 3 TOP_DOWN).
Proof. reflexivity. Qed.

Example serial_bfs_diamond : serial_bfs diamond 0 = Some [0; 1; 1; 2; -1].
Proof. reflexivity. Qed.

(** With the low thresholds the first level is already bottom-up, and the
    frontier is kept as a bitmap. *)
Example eager_first_level :
  run_levels eager (@rev nat) diamond 1 (create diamond 0)
  = Some (mkState [0; 1; 1; -1; -1] (Bitmap [false; true; true; false; false])
            1 BOTTOM_UP).
Proof. reflexivity. Qed.

Example eager_bfs_diamond :
  level <$> adaptive_bfs eager (@rev nat) diamond 0 = Some [0; 1; 1; 2; -1].
Proof. reflexivity. Qed.

(** Bins of size 4: the vertex of degree 9 is alone in its bin. *)
Example make_bins_by_four :
  make_bins 4 [(0%nat, 3); (1%nat, 2); (2%nat, 9); (3%nat, 1); (4%nat, 1)]
  = Some (Binned [(0, [(0%nat, 3); (1%nat, 2)]); (1, [(2%nat, 9)]);
                  (3, [(3%nat, 1); (4%nat, 1)])]).
Proof. reflexivity. Qed.

Example make_bins_by_zero :
  make_bins 0 [(0%nat, 3); (1%nat, 2)] = Some (Degraded [[(0%nat, 3)]; [(1%nat, 2)]]).
Proof. reflexivity. Qed.

Example top_down_work_through_bins :
  top_down_work eager diamond [1; 2; 0]%nat = Some [3; 3; 1; 2]%nat.
Proof. reflexivity. Qed.

Example run_bfs_bin_size_zero :
  run_bfs (mkConfig 0 512 256 32 1024 SWITCH_TO SWITCH_BACK 0) (@rev nat) diamond 0
  = mkProcess [Diagnostic "configuration error: BIN_SZ == 0"] (Exited 1).
Proof. reflexivity. Qed.

Example run_bfs_thresholds_swapped :
  run_bfs (mkConfig 0 512 256 32 1024 SWITCH_BACK SWITCH_TO 8192) (@rev nat) diamond 0
  = mkProcess [Diagnostic "configuration error: SWITCH_TO >= SWITCH_BACK"] (Exited 1).
Proof. reflexivity. Qed.

Example run_bfs_shipped :
  run_bfs shipped (@rev nat) diamond 0
  = mkProcess [LevelBegun 0; LevelBegun 1; LevelBegun 2]
      (Returned (Some (mkState [0; 1; 1; 2; -1] (Queue []) 3 TOP_DOWN))).
Proof. reflexivity. Qed.

(** ** More of the two headers *)

Lemma preprocess_nil (st : PP) : preprocess [] st = st.
Proof. reflexivity. Qed.

Lemma preprocess_cons (i : Item) (l : list Item) (st : PP) :
  preprocess (i :: l) st = preprocess l (pp_item i st).
Proof. reflexivity. Qed.

Lemma preprocess_app (a b : list Item) (st : PP) :
  preprocess (a ++ b) st = preprocess b (preprocess a st).
Proof. apply fold_left_app. Qed.

Lemma pp_item_define (n : string) (d : MacroDef) (st : PP) :
  pp_item (Define n d) st = mkPP (<[n := d]> (macros st)) (typedefs st).
Proof. reflexivity. Qed.

Lemma pp_item_undef (n : string) (st : PP) :
  pp_item (Undef n) st = mkPP (delete n (macros st)) (typedefs st).
Proof. reflexivity. Qed.

Lemma pp_item_typedef (n : string) (t : CType) (st : PP) :
  pp_item (Typedef n t) st = mkPP (macros st) (<[n := t]> (typedefs st)).
Proof. reflexivity. Qed.

Lemma pp_item_other (text : string) (st : PP) : pp_item (Other text) st = st.
Proof. reflexivity. Qed.

Lemma pp_item_ifndef (n : string) (th el : list Item) (st : PP) :
  pp_item (IfNDef n th el) st
  = match macros st !! n with
    | None => preprocess th st
    | Some _ => preprocess el st
    end.
Proof.
  assert (Hgo : forall (l : list Item) (st : PP),
            (fix go (l : list Item) (st : PP) {struct l} : PP :=
               match l with
               | [] => st
               | x :: r => go r (pp_item x st)
               end) l st = preprocess l st).
  { intros l. induction l as [| x l IH]; intros st'; [done |].
    rewrite preprocess_cons. apply IH. }
  simpl. by rewrite !Hgo.
Qed.

Lemma pp_item_default (n : string) (d : MacroDef) (st : PP) :
  pp_item (IfNDef n [Define n d] []) st
  = mkPP (ifndef_define n d (macros st)) (typedefs st).
Proof.
  rewrite pp_item_ifndef. unfold ifndef_define.
  destruct st as [m t]. simpl. by destruct (m !! n).
Qed.

Lemma lookup_ifndef_define (n : string) (d : MacroDef) (m : gmap string MacroDef) (k : string) :
  ifndef_define n d m !! k
  = match m !! k with
    | Some x => Some x
    | None => if decide (n = k) then Some d else None
    end.
Proof.
  unfold ifndef_define. destruct (m !! n) as [x |] eqn:Hn.
  - destruct (m !! k) eqn:Hk; [done |]. case_decide; [congruence | done].
  - rewrite lookup_insert. case_decide as Hnk.
    + subst. by rewrite Hn.
    + by destruct (m !! k).
Qed.

Create Rewrite HintDb pp.
#[local] Hint Rewrite preprocess_nil preprocess_cons pp_item_define pp_item_undef
  pp_item_typedef pp_item_other pp_item_default : pp.

(** [util.h] in closed form: skipped when [UTIL_H] is defined. *)
Lemma util_h_result (st : PP) :
  preprocess util_h st
  = match macros st !! "UTIL_H"%string with
    | Some _ => st
    | None => mkPP (util_h_macros (macros st)) (typedefs st)
    end.
Proof.
  unfold util_h. rewrite preprocess_cons, preprocess_nil, pp_item_ifndef.
  destruct (macros st !! "UTIL_H"%string); [done |].
  autorewrite with pp. reflexivity.
Qed.

(** [header.h] in closed form: skipped when [HEADER_H] is defined. *)
Lemma header_h_result (st : PP) :
  preprocess header_h st
  = match macros st !! "HEADER_H"%string with
    | Some _ => st
    | None => mkPP (header_h_macros (macros st)) (header_h_typedefs (typedefs st))
    end.
Proof.
  unfold header_h. rewrite preprocess_cons, preprocess_nil, pp_item_ifndef.
  destruct (macros st !! "HEADER_H"%string); [done |].
  rewrite !preprocess_cons, !pp_item_define, !pp_item_typedef, pp_item_ifndef.
  cbn [macros typedefs].
  destruct (_ !! "BLKS_NUM"%string).
  - autorewrite with pp. cbn [macros typedefs]. unfold header_h_macros.
    by rewrite insert_delete_eq.
  - autorewrite with pp. reflexivity.
Qed.

(** Lookups in the closed forms, for a key that is known. *)
Ltac pp_lookup :=
  unfold util_h_macros, header_h_macros, header_h_typedefs, int_lit;
  rewrite ?lookup_ifndef_define;
  repeat first [ rewrite lookup_insert_eq | rewrite lookup_insert_ne by done ].

(** Lookups in the closed forms, for any key. *)
Ltac pp_cases :=
  unfold util_h_macros, header_h_macros, header_h_typedefs, int_lit;
  repeat first
    [ rewrite lookup_ifndef_define
    | rewrite lookup_insert
    | case_decide; simplify_eq
    | case_match; simplify_eq ];
  try done.

Lemma util_h_macros_guard (m : gmap string MacroDef) :
  is_Some (util_h_macros m !! "UTIL_H"%string).
Proof. pp_lookup. by eexists. Qed.

Lemma header_h_macros_guard (m : gmap string MacroDef) :
  is_Some (header_h_macros m !! "HEADER_H"%string).
Proof. pp_lookup. by eexists. Qed.

Lemma util_h_macros_HEADER_H (m : gmap string MacroDef) :
  util_h_macros m !! "HEADER_H"%string = m !! "HEADER_H"%string.
Proof. pp_cases. Qed.

Lemma header_h_macros_UTIL_H (m : gmap string MacroDef) :
  header_h_macros m !! "UTIL_H"%string = m !! "UTIL_H"%string.
Proof. pp_cases. Qed.

(** X1: the include guards.  A header whose guard macro is defined changes
    nothing, and after a header its guard macro is defined; so including
    [util.h] or [header.h] a second time, at once or after the other header,
    changes nothing, whatever the macro table held before. *)
Theorem include_guards (st : PP) :
  (is_Some (macros st !! "UTIL_H"%string) -> preprocess util_h st = st) /\
  (is_Some (macros st !! "HEADER_H"%string) -> preprocess header_h st = st) /\
  is_Some (macros (preprocess util_h st) !! "UTIL_H"%string) /\
  is_Some (macros (preprocess header_h st) !! "HEADER_H"%string) /\
  preprocess (util_h ++ util_h) st = preprocess util_h st /\
  preprocess (header_h ++ header_h) st = preprocess header_h st /\
  preprocess (util_h ++ header_h ++ util_h) st = preprocess (util_h ++ header_h) st /\
  preprocess (header_h ++ util_h ++ header_h) st = preprocess (header_h ++ util_h) st.
Proof.
  assert (Hu : forall st, is_Some (macros st !! "UTIL_H"%string) ->
                          preprocess util_h st = st).
  { intros st' [d Hd]. by rewrite util_h_result, Hd. }
  assert (Hh : forall st, is_Some (macros st !! "HEADER_H"%string) ->
                          preprocess header_h st = st).
  { intros st' [d Hd]. by rewrite header_h_result, Hd. }
  assert (Hu' : forall st, is_Some (macros (preprocess util_h st) !! "UTIL_H"%string)).
  { intros st'. rewrite util_h_result.
    destruct (macros st' !! "UTIL_H"%string) eqn:E; [by rewrite E |].
    apply util_h_macros_guard. }
  assert (Hh' : forall st, is_Some (macros (preprocess header_h st) !! "HEADER_H"%string)).
  { intros st'. rewrite header_h_result.
    destruct (macros st' !! "HEADER_H"%string) eqn:E; [by rewrite E |].
    apply header_h_macros_guard. }
  assert (Hhu : forall st, is_Some (macros st !! "UTIL_H"%string) ->
                           is_Some (macros (preprocess header_h st) !! "UTIL_H"%string)).
  { intros st' Hd. rewrite header_h_result.
    destruct (macros st' !! "HEADER_H"%string); [done |].
    cbn [macros]. by rewrite header_h_macros_UTIL_H. }
  assert (Huh : forall st, is_Some (macros st !! "HEADER_H"%string) ->
                           is_Some (macros (preprocess util_h st) !! "HEADER_H"%string)).
  { intros st' Hd. rewrite util_h_result.
    destruct (macros st' !! "UTIL_H"%string); [done |].
    cbn [macros]. by rewrite util_h_macros_HEADER_H. }
  split; [apply Hu |]. split; [apply Hh |].
  split; [apply Hu' |]. split; [apply Hh' |].
  rewrite !preprocess_app.
  split; [apply Hu, Hu' |]. split; [apply Hh, Hh' |].
  split; [apply Hu, Hhu, Hu' | apply Hh, Huh, Hh'].
Qed.

(** What the directives of [util.h] and of [header.h] leave alone; what the
    file [util.h] includes defines is not among them. *)
Lemma util_h_frame (st : PP) (k : string) :
  k ∉ util_h_names -> macros (preprocess util_h st) !! k = macros st !! k.
Proof.
  intros Hk. rewrite util_h_result.
  destruct (macros st !! "UTIL_H"%string); [done |]. cbn [macros].
  unfold util_h_names in Hk. rewrite !not_elem_of_cons in Hk.
  destruct_and!. pp_cases.
Qed.

Lemma header_h_frame (st : PP) (k : string) :
  k ∉ header_h_names -> macros (preprocess header_h st) !! k = macros st !! k.
Proof.
  intros Hk. rewrite header_h_result.
  destruct (macros st !! "HEADER_H"%string); [done |]. cbn [macros].
  unfold header_h_names in Hk. rewrite !not_elem_of_cons in Hk.
  destruct_and!. pp_cases.
Qed.

Lemma header_h_keeps_defined (st : PP) (k : string) :
  is_Some (macros st !! k) -> is_Some (macros (preprocess header_h st) !! k).
Proof.
  intros [d Hd]. rewrite header_h_result.
  destruct (macros st !! "HEADER_H"%string); [by rewrite Hd |]. cbn [macros].
  pp_cases; by eexists.
Qed.

Lemma util_h_gives_fixed (st : PP) :
  macros st !! "UTIL_H"%string = None -> util_h_fixed (preprocess util_h st).
Proof.
  intros Hguard. rewrite util_h_result, Hguard.
  unfold util_h_fixed. cbn [macros].
  repeat split; pp_cases.
Qed.

Lemma header_h_keeps_util_h_fixed (tu : PP) :
  util_h_fixed tu -> util_h_fixed (preprocess header_h tu).
Proof.
  unfold util_h_fixed.
  rewrite !header_h_frame; [done | | | | |];
    unfold header_h_names; rewrite !not_elem_of_cons; repeat split; try done;
    apply not_elem_of_nil.
Qed.



Lemma after_util_h_fixed (st tu : PP) :
  macros st !! "UTIL_H"%string = None -> tu ∈ after_util_h st -> util_h_fixed tu.
Proof.
  intros Hguard Htu. unfold after_util_h in Htu.
  rewrite !preprocess_app in Htu.
  apply elem_of_cons in Htu as [-> | Htu]; [by apply util_h_gives_fixed |].
  apply elem_of_cons in Htu as [-> | Htu];
    [by apply header_h_keeps_util_h_fixed, util_h_gives_fixed |].
  apply list_elem_of_singleton in Htu as ->.
  apply util_h_gives_fixed. rewrite header_h_frame; [done |].
  unfold header_h_names. rewrite !not_elem_of_cons. repeat split; try done.
  apply not_elem_of_nil.
Qed.


(** A name neither header defines is, after the headers, what it was. *)
Lemma after_headers_frame (st tu : PP) (k : string) :
  k ∉ util_h_names -> k ∉ header_h_names ->
  tu ∈ after_util_h st \/ tu ∈ after_header_h st ->
  macros tu !! k = macros st !! k.
Proof.
  intros Hu Hh Htu.
  assert (Hcases : tu = preprocess util_h st \/ tu = preprocess header_h st \/
                   tu = preprocess header_h (preprocess util_h st) \/
                   tu = preprocess util_h (preprocess header_h st)).
  { unfold after_util_h, after_header_h in Htu. rewrite !preprocess_app in Htu.
    rewrite !elem_of_cons, !elem_of_nil in Htu. tauto. }
  destruct Hcases as [-> | [-> | [-> | ->]]];
    rewrite ?header_h_frame, ?util_h_frame, ?header_h_frame by done; done.
Qed.

Lemma macro_use_eq (st : PP) (n : string) (e : CExpr) :
  macros st !! n = Some (ObjectLike (Some e)) ->
  Forall (fun w => macros st !! w = None) (expr_words e) ->
  macro_use st n = Some (eval e).
Proof.
  intros Hn Hwords. unfold macro_use. rewrite Hn.
  assert (Hall : forallb (fun w => bool_decide (macros st !! w = None)) (expr_words e)
                 = true).
  { apply forallb_forall. intros w Hw%list_elem_of_In.
    apply bool_decide_eq_true. by apply (proj1 (Forall_forall _ _) Hwords). }
  by rewrite Hall.
Qed.

(** A use whose replacement list holds the name of a macro has no value
    here: compiled with [-Dfloat=1], say. *)
Example macro_use_rescans :
  let tu := preprocess util_h (predefine "float" (EInt 1) pp_empty) in
  macro_use tu "SWITCH_TO" = None /\ macro_use tu "SML_MID" = Some (VInt 32).
Proof. split; vm_compute; reflexivity. Qed.

(** X2: the four thresholds and [H_ERR] cannot be set from the compiler
    command line.  Whatever the macro table holds before [util.h] (its include
    guard apart), after [util.h], and after both headers in either order, the
    five macros have the definitions [util.h] writes, and a use of SML_MID is
    32 and a use of MID_LRG is 1024.  The replacement lists of SWITCH_TO and
    SWITCH_BACK are written with the word [float]: unless that word is defined
    as a macro, a use of SWITCH_TO is (float)0.2 and a use of SWITCH_BACK is
    (float)0.4, so that the first is below the second. *)
Theorem util_h_thresholds_fixed (st : PP) :
  macros st !! "UTIL_H"%string = None ->
  Forall (fun tu =>
            util_h_fixed tu /\
            macro_use tu "SML_MID" = Some (VInt SML_MID) /\
            macro_use tu "MID_LRG" = Some (VInt MID_LRG) /\
            (macros st !! "float"%string = None ->
             exists a b : Q,
               macro_use tu "SWITCH_TO" = Some (VFloat a) /\
               macro_use tu "SWITCH_BACK" = Some (VFloat b) /\
               a = SWITCH_TO /\ b = SWITCH_BACK /\ (a < b)%Q))
         (after_util_h st).
Proof.
  intros Hguard. apply Forall_forall. intros tu Htu.
  pose proof (after_util_h_fixed st tu Hguard Htu) as Hfixed.
  split; [exact Hfixed |].
  destruct Hfixed as (Hsml & Hmid & Hto & Hback & _).
  split; [by apply (macro_use_eq tu "SML_MID" (EInt 32)); [| constructor] |].
  split; [by apply (macro_use_eq tu "MID_LRG" (EInt 1024)); [| constructor] |].
  intros Hfloat.
  assert (Hfloat' : macros tu !! "float"%string = None).
  { rewrite (after_headers_frame st tu "float"); [done | | | by left];
      [unfold util_h_names | unfold header_h_names];
      rewrite !not_elem_of_cons; repeat split; try done; apply not_elem_of_nil. }
  exists SWITCH_TO, SWITCH_BACK.
  split; [| split; [| by repeat split]].
  - rewrite (macro_use_eq tu "SWITCH_TO" _ Hto); [done |].
    by repeat constructor.
  - rewrite (macro_use_eq tu "SWITCH_BACK" _ Hback); [done |].
    by repeat constructor.
Qed.

(** Compiled with [-DSML_MID=0 -DSWITCH_TO=1]. *)
Lemma util_h_thresholds_fixed_witness :
  let st := predefine "SML_MID" (EInt 0) (predefine "SWITCH_TO" (EInt 1) pp_empty) in
  Forall (fun tu =>
            util_h_fixed tu /\
            macro_use tu "SML_MID" = Some (VInt SML_MID) /\
            macro_use tu "MID_LRG" = Some (VInt MID_LRG) /\
            (macros st !! "float"%string = None ->
             exists a b : Q,
               macro_use tu "SWITCH_TO" = Some (VFloat a) /\
               macro_use tu "SWITCH_BACK" = Some (VFloat b) /\
               a = SWITCH_TO /\ b = SWITCH_BACK /\ (a < b)%Q))
         (after_util_h st).
Proof.
  apply (util_h_thresholds_fixed
           (predefine "SML_MID" (EInt 0) (predefine "SWITCH_TO" (EInt 1) pp_empty))).
  reflexivity.
Defined.



Lemma util_h_macros_keeps (m : gmap string MacroDef) (k : string) (d : MacroDef) :
  k = "GPUID"%string \/ k = "THDS_NUM"%string \/ k = "BLKS_NUM"%string ->
  m !! k = Some d -> util_h_macros m !! k = Some d.
Proof. intros [-> | [-> | ->]] Hd; pp_cases. Qed.

(** X4: the device id and the thread count are configurable at compile time:
    a definition of GPUID or THDS_NUM given before the headers stands after
    both of them, in either order, and without one [util.h] gives GPUID = 0
    and THDS_NUM = 512. *)
Theorem GPUID_THDS_NUM_configurable (st : PP) (n : string) :
  n = "GPUID"%string \/ n = "THDS_NUM"%string ->
  (forall d : MacroDef,
     macros st !! n = Some d ->
     macros (preprocess util_h st) !! n = Some d /\
     macros (preprocess (util_h ++ header_h) st) !! n = Some d /\
     macros (preprocess (header_h ++ util_h) st) !! n = Some d) /\
  (macros st !! n = None ->
   macros st !! "UTIL_H"%string = None ->
   let d := int_lit (if decide (n = "GPUID"%string) then 0 else 512) in
   macros (preprocess util_h st) !! n = Some d /\
   macros (preprocess (util_h ++ header_h) st) !! n = Some d /\
   macros (preprocess (header_h ++ util_h) st) !! n = Some d).
Proof.
  intros Hn.
  assert (Hframe : forall tu, macros (preprocess header_h tu) !! n = macros tu !! n).
  { intros tu. apply header_h_frame. unfold header_h_names.
    rewrite !not_elem_of_cons.
    destruct Hn as [-> | ->]; repeat split; try done; apply not_elem_of_nil. }
  assert (Hkeep : forall tu d, macros tu !! n = Some d ->
                               macros (preprocess util_h tu) !! n = Some d).
  { intros tu d Hd. rewrite util_h_result.
    destruct (macros tu !! "UTIL_H"%string); [done |]. cbn [macros].
    apply util_h_macros_keeps; [tauto | done]. }
  assert (Hdefault : forall tu,
            macros tu !! n = None -> macros tu !! "UTIL_H"%string = None ->
            macros (preprocess util_h tu) !! n
            = Some (int_lit (if decide (n = "GPUID"%string) then 0 else 512))).
  { intros tu Hd Hguard. rewrite util_h_result, Hguard. cbn [macros].
    destruct Hn as [-> | ->]; pp_cases. }
  split.
  - intros d Hd. rewrite !preprocess_app.
    split; [by apply Hkeep |]. split; [by rewrite Hframe; apply Hkeep |].
    apply Hkeep. by rewrite Hframe.
  - intros Hd Hguard d. subst d. rewrite !preprocess_app.
    split; [by apply Hdefault |]. split; [by rewrite Hframe; apply Hdefault |].
    apply Hdefault; [by rewrite Hframe |].
    rewrite header_h_frame; [done |]. unfold header_h_names.
    rewrite !not_elem_of_cons. repeat split; try done. apply not_elem_of_nil.
Qed.

(** Compiled with [-DGPUID=1]. *)
Lemma GPUID_THDS_NUM_configurable_witness :
  let st := predefine "GPUID" (EInt 1) pp_empty in
  (forall d : MacroDef,
     macros st !! "GPUID"%string = Some d ->
     macros (preprocess util_h st) !! "GPUID"%string = Some d /\
     macros (preprocess (util_h ++ header_h) st) !! "GPUID"%string = Some d /\
     macros (preprocess (header_h ++ util_h) st) !! "GPUID"%string = Some d) /\
  (macros st !! "GPUID"%string = None ->
   macros st !! "UTIL_H"%string = None ->
   let d := int_lit (if decide ("GPUID"%string = "GPUID"%string) then 0 else 512) in
   macros (preprocess util_h st) !! "GPUID"%string = Some d /\
   macros (preprocess (util_h ++ header_h) st) !! "GPUID"%string = Some d /\
   macros (preprocess (header_h ++ util_h) st) !! "GPUID"%string = Some d).
Proof.
  apply (GPUID_THDS_NUM_configurable (predefine "GPUID" (EInt 1) pp_empty) "GPUID").
  left. reflexivity.
Defined.

Lemma header_util_commute (m : gmap string MacroDef) :
  header_h_macros (util_h_macros m) = util_h_macros (header_h_macros m).
Proof. apply map_eq. intros k. pp_cases. Qed.

(** X5: the order of the two headers does not matter: from any macro table
    and typedef table in which neither include guard is defined, [util.h]
    then [header.h] and [header.h] then [util.h] leave the same tables. *)
Theorem include_order_irrelevant (st : PP) :
  macros st !! "UTIL_H"%string = None ->
  macros st !! "HEADER_H"%string = None ->
  preprocess (util_h ++ header_h) st = preprocess (header_h ++ util_h) st.
Proof.
  intros Hu Hh. rewrite !preprocess_app.
  rewrite (util_h_result st), Hu, header_h_result. cbn [macros typedefs].
  rewrite util_h_macros_HEADER_H, Hh.
  rewrite (header_h_result st), Hh, util_h_result. cbn [macros typedefs].
  rewrite header_h_macros_UTIL_H, Hu.
  by rewrite header_util_commute.
Qed.

(** Compiled with [-DBLKS_NUM=96 -DGPUID=1]. *)
Lemma include_order_irrelevant_witness :
  let st := predefine "BLKS_NUM" (EInt 96) (predefine "GPUID" (EInt 1) pp_empty) in
  preprocess (util_h ++ header_h) st = preprocess (header_h ++ util_h) st.
Proof.
  apply (include_order_irrelevant
           (predefine "BLKS_NUM" (EInt 96) (predefine "GPUID" (EInt 1) pp_empty)));
    reflexivity.
Defined.

(** X6: [header.h] takes no definition away, and leaves every macro it does
    not name as it was: a macro defined before [header.h] is defined after
    it, and a macro outside [header_h_names] (HEADER_H, INFTY, BLKS_NUM and
    BIN_SZ) has after [header.h] the definition it had, or none as before. *)
Theorem header_h_keeps_the_rest (st : PP) (k : string) :
  (is_Some (macros st !! k) -> is_Some (macros (preprocess header_h st) !! k)) /\
  (k ∉ header_h_names -> macros (preprocess header_h st) !! k = macros st !! k).
Proof.
  split; [apply header_h_keeps_defined | apply header_h_frame].
Qed.

(** ** More of the error handler *)

Lemma run_eta {A : Type} (r : Run A) : mkRun (written r) (outcome r) = r.
Proof. by destruct r. Qed.

Lemma bind_ret {A B : Type} (a : A) (k : A -> Run B) : bind (ret a) k = k a.
Proof. unfold bind, ret. simpl. apply run_eta. Qed.

Lemma HandleError_cases (descr : Z -> string) (err : Z) (file : string) (line : Z) :
  (err = cudaSuccess /\ HandleError descr err file line = ret tt) \/
  (err <> cudaSuccess /\
   HandleError descr err file line
   = mkRun [format_error (descr err) file line] (Exited EXIT_FAILURE)).
Proof.
  unfold HandleError. destruct (Z.eqb_spec err cudaSuccess); [by left | by right].
Qed.

Lemma bind_HandleError
    (descr : Z -> string) (file : string) (line : Z) (err : Z)
    (B : Type) (k : unit -> Run B) :
  (err = cudaSuccess -> bind (HandleError descr err file line) k = k tt) /\
  (err <> cudaSuccess ->
     bind (HandleError descr err file line) k
     = mkRun [format_error (descr err) file line] (Exited EXIT_FAILURE)).
Proof.
  destruct (HandleError_cases descr err file line) as [[Heq ->] | [Hne ->]].
  - split; [intros _; apply bind_ret | done].
  - split; [done | reflexivity].
Qed.

(** X7: code that follows [H_ERR( err )] runs exactly when [err] is
    [cudaSuccess], and then as if the check were not there; otherwise the run
    is the report and the exit alone, whatever the code that follows is. *)
Theorem H_ERR_guards_what_follows
    (descr : Z -> string) (file : string) (line : Z) (err : Z)
    (B : Type) (k : unit -> Run B) :
  (err = cudaSuccess -> bind (H_ERR descr file line err) k = k tt) /\
  (err <> cudaSuccess ->
     bind (H_ERR descr file line err) k
     = mkRun [format_error (descr err) file line] (Exited EXIT_FAILURE)).
Proof. unfold H_ERR. apply bind_HandleError. Qed.

Lemma first_failure_cons (c : Check) (rest : list Check) :
  first_failure (c :: rest)
  = if negb (c.2 =? cudaSuccess) then Some c else first_failure rest.
Proof. reflexivity. Qed.

Lemma first_failure_none (checks : list Check) :
  first_failure checks = None
  <-> Forall (fun c : Check => c.2 = cudaSuccess) checks.
Proof.
  induction checks as [| c rest IH]; [by split; [constructor |] |].
  rewrite first_failure_cons, Forall_cons.
  destruct (Z.eqb_spec c.2 cudaSuccess) as [Heq | Hne]; simpl.
  - rewrite IH. tauto.
  - split; [done | tauto].
Qed.

(** X8: a run of checks stops at the first error: it writes the report of
    the first check whose code is not [cudaSuccess], and of no other, and
    exits with [EXIT_FAILURE]; it returns, having written nothing, exactly
    when every code is [cudaSuccess].  So there is never more than one
    report. *)
Theorem H_ERR_all_first_failure (descr : Z -> string) (checks : list Check) :
  H_ERR_all descr checks
  = match first_failure checks with
    | None => mkRun [] (Returned tt)
    | Some (file, line, err) =>
        mkRun [format_error (descr err) file line] (Exited EXIT_FAILURE)
    end /\
  (outcome (H_ERR_all descr checks) = Returned tt
   <-> Forall (fun c : Check => c.2 = cudaSuccess) checks) /\
  (first_failure checks = None
   <-> Forall (fun c : Check => c.2 = cudaSuccess) checks) /\
  (length (written (H_ERR_all descr checks)) <= 1)%nat.
Proof.
  assert (Hrun : H_ERR_all descr checks
                 = match first_failure checks with
                   | None => mkRun [] (Returned tt)
                   | Some (file, line, err) =>
                       mkRun [format_error (descr err) file line] (Exited EXIT_FAILURE)
                   end).
  { induction checks as [| [[file line] err] rest IH]; [reflexivity |].
    rewrite first_failure_cons. cbn [H_ERR_all snd].
    unfold H_ERR.
    destruct (bind_HandleError descr file line err unit
                (fun _ => H_ERR_all descr rest)) as [Hok Hfail].
    destruct (Z.eqb_spec err cudaSuccess) as [Heq | Hne]; simpl.
    - by rewrite (Hok Heq).
    - by rewrite (Hfail Hne). }
  pose proof (first_failure_none checks) as Hnone.
  split; [exact Hrun |]. split; [| split; [exact Hnone |]].
  - rewrite <- Hnone, Hrun.
    destruct (first_failure checks) as [[[file line] err] |]; simpl; split; congruence.
  - rewrite Hrun.
    destruct (first_failure checks) as [[[file line] err] |]; simpl; lia.
Qed.

Lemma string_length_app (a b : string) :
  String.length (a +:+ b) = (String.length a + String.length b)%nat.
Proof.
  induction a as [| ch a IH]; [reflexivity |].
  change (S (String.length (a +:+ b)) = S (String.length a + String.length b)).
  by rewrite IH.
Qed.

Lemma string_app_inj_r (a b t : string) : a +:+ t = b +:+ t -> a = b.
Proof.
  revert b. induction a as [| ch a IH]; intros [| ch' b] H.
  - reflexivity.
  - apply (f_equal String.length) in H.
    change (String.length t = S (String.length (b +:+ t))) in H.
    rewrite string_length_app in H. lia.
  - apply (f_equal String.length) in H.
    change (S (String.length (a +:+ t)) = String.length t) in H.
    rewrite string_length_app in H. lia.
  - change (String ch (a +:+ t) = String ch' (b +:+ t)) in H.
    injection H as -> H. f_equal. by apply IH.
Qed.

(** X9: the report tells its three parts apart one at a time: two reports
    with the same description and file are equal only for the same line, two
    with the same file and line only for the same description, and two with
    the same description and line only for the same file. *)
Theorem format_error_tells_apart (d d' f f' : string) (l l' : Z) :
  (format_error d f l = format_error d f l' -> l = l') /\
  (format_error d f l = format_error d' f l -> d = d') /\
  (format_error d f l = format_error d f' l -> f = f').
Proof.
  unfold format_error. repeat split.
  - intros H. do 4 apply String.app_inj in H.
    apply string_app_inj_r in H. by apply pretty_Z_inj in H.
  - intros H. by apply string_app_inj_r in H.
  - intros H. do 2 apply String.app_inj in H. by apply string_app_inj_r in H.
Qed.
